(** * models.py: feature extractors, linear classifiers and online trainers

    A shallow embedding of [models.py] and the properties of its
    extractors, classifiers and training loops.

    Conventions of the embedding.
    - Python exceptions are the [Raise] outcome of [result]; code that
      mutates objects runs in a state-and-error monad [M S], where [S]
      holds the mutable objects the code shares.
    - A [Counter] is a Python dict: an association list kept in
      insertion order, because [for f in features] iterates in that
      order.
    - Numbers are abstract ([Numeric]): Python mixes the int [0] with
      binary64 floats; every generic result holds for any number system
      whose [>] is irreflexive, and the probability identities are stated
      over the real numbers.  [math.exp] is abstract too ([Exponential]):
      it returns or raises [OverflowError].
    - [str.lower] is abstract ([Lowercase]); the runs on ASCII text use
      its ASCII instance.
    - The global generator of the [random] module is a cell of the
      store; [random.shuffle] is CPython's Fisher-Yates loop over an
      abstract [randbelow], instantiated below with MT19937. *)

From Stdlib Require Import ZArith String Ascii List Permutation Reals Lra Lia Floats.
From stdpp Require Import base tactics option list.

Open Scope string_scope.
Open Scope nat_scope.

(** ** Exceptions and the state-and-error monad *)

Inductive exn : Type :=
| LookupError
| IndexError
| AttributeError
| OverflowError
| ConfigError (msg : string).

Inductive result (A : Type) : Type :=
| Ok (a : A)
| Raise (e : exn).
Arguments Ok {A} a.
Arguments Raise {A} e.

Definition M (S A : Type) : Type := S -> result (A * S).

Definition ret {S A} (a : A) : M S A := fun s => Ok (a, s).

Definition bind {S A B} (c : M S A) (k : A -> M S B) : M S B :=
  fun s => match c s with
           | Ok (a, s') => k a s'
           | Raise e => Raise e
           end.

Definition raise {S A} (e : exn) : M S A := fun _ => Raise e.
Definition get {S} : M S S := fun s => Ok (s, s).
Definition gets {S A} (f : S -> A) : M S A := fun s => Ok (f s, s).
Definition put {S} (s : S) : M S unit := fun _ => Ok (tt, s).
Definition modify {S} (f : S -> S) : M S unit := fun s => Ok (tt, f s).

Notation "'let*' x := c 'in' k" := (bind c (fun x => k))
  (at level 10, x pattern, c at level 100, k at level 200).
Notation "c1 ;; c2" := (bind c1 (fun _ => c2))
  (at level 100, c2 at level 200, right associativity).

(** Run [c] on the part of the state selected by a getter and a setter:
    a method working on one object of the store. *)
Definition zoom {S T A} (proj : S -> T) (upd : T -> S -> S) (c : M T A) : M S A :=
  fun s => match c (proj s) with
           | Ok (a, t) => Ok (a, upd t s)
           | Raise e => Raise e
           end.

(** [for x in xs: body(x)], the iterable being fixed when the loop starts. *)
Fixpoint for_each {S A} (xs : list A) (body : A -> M S unit) : M S unit :=
  match xs with
  | [] => ret tt
  | x :: xs' => body x ;; for_each xs' body
  end.

(** [range(n)] for a Python int [n]: empty when [n] is negative. *)
Definition range (n : Z) : list nat := seq 0 (Z.to_nat n).

(** [l[i]] for a non-negative [i]: [IndexError] out of range. *)
Definition getitem {A} (l : list A) (i : nat) : result A :=
  match l !! i with
  | Some x => Ok x
  | None => Raise IndexError
  end.

(** [l[i] = v]: [IndexError] out of range. *)
Definition setitem {A} (l : list A) (i : nat) (v : A) : result (list A) :=
  if decide (i < length l) then Ok (<[i:=v]> l) else Raise IndexError.

Definition lift {S A} (r : result A) : M S A :=
  fun s => match r with Ok a => Ok (a, s) | Raise e => Raise e end.

(** Total correctness: [c] started in [s] does not raise and its outcome
    satisfies [Q]. *)
Definition post {S A} (c : M S A) (s : S) (Q : A -> S -> Prop) : Prop :=
  match c s with
  | Ok (a, s') => Q a s'
  | Raise _ => False
  end.

(** [c] started in [s] returns with [Q], or raises [OverflowError] and
    nothing else. *)
Definition post_or_overflow {S A} (c : M S A) (s : S) (Q : A -> S -> Prop)
  : Prop :=
  match c s with
  | Ok (a, s') => Q a s'
  | Raise e => e = OverflowError
  end.

(** ** Strings *)

(** [str.lower()], whatever it does to a string. *)
Class Lowercase : Type := lower : string -> string.

(** [str.lower()] on ASCII text: [A]..[Z] are mapped to [a]..[z], every
    other byte is kept.  This is what [str.lower()] does to a string of
    ASCII characters; the runs on concrete sentences below use it. *)
Definition lower_ascii (c : ascii) : ascii :=
  let n := nat_of_ascii c in
  if (65 <=? n) && (n <=? 90) then ascii_of_nat (n + 32) else c.

Fixpoint ascii_lower (s : string) : string :=
  match s with
  | EmptyString => EmptyString
  | String c s' => String (lower_ascii c) (ascii_lower s')
  end.

#[export] Instance Ascii_Lowercase : Lowercase := ascii_lower.

(** ** Vocabulary indexer *)

(** Modelled from the spec: the class [Indexer] of [utils.py], which is
    not part of the sources at hand.  The spec describes a bijection
    between feature strings and the dense indices [0..size-1], assigned
    in first-seen order; the list of the strings in index order is that
    bijection.  [index_of] fails with a lookup error on an absent key,
    [add_and_get_index] returns the existing index of a known key and
    the next free index otherwise. *)
Module Indexer.

Record t : Type := Make { objs : list string }.

Definition empty : t := Make [].

Definition size (ix : t) : nat := length (objs ix).

Fixpoint position (key : string) (l : list string) : option nat :=
  match l with
  | [] => None
  | o :: l' => if String.eqb key o then Some 0
               else option_map S (position key l')
  end.

Definition contains (ix : t) (key : string) : bool :=
  match position key (objs ix) with Some _ => true | None => false end.

Definition index_of (key : string) : M t nat :=
  fun ix => match position key (objs ix) with
            | Some i => Ok (i, ix)
            | None => Raise LookupError
            end.

Definition add_and_get_index (key : string) : M t nat :=
  fun ix => match position key (objs ix) with
            | Some i => Ok (i, ix)
            | None => Ok (size ix, Make (objs ix ++ [key]))
            end.

End Indexer.

(** ** Sparse feature vectors *)

(** [collections.Counter] with int keys and int values. *)
Definition Counter : Type := list (nat * Z).

(** [features[k] = v]: a known key keeps its position, a new key goes
    last. *)
Fixpoint counter_set (k : nat) (v : Z) (c : Counter) : Counter :=
  match c with
  | [] => [(k, v)]
  | (k', v') :: c' =>
      if Nat.eqb k k' then (k, v) :: c' else (k', v') :: counter_set k v c'
  end.

(** [features[k]]: a Counter answers 0 for a missing key. *)
Fixpoint counter_get (c : Counter) (k : nat) : Z :=
  match c with
  | [] => 0%Z
  | (k', v') :: c' => if Nat.eqb k k' then v' else counter_get c' k
  end.

(** The keys in iteration order, [for f in features]. *)
Definition counter_keys (c : Counter) : list nat := map fst c.

(** ** Feature extractors *)

Inductive FeatureExtractor : Type :=
| UnigramFeatureExtractor
| BigramFeatureExtractor
| BetterFeatureExtractor.

(** The body the three [extract_features] loops share, for one n-gram
    already in lower case. *)
Definition record_feature (add_to_indexer : bool) (gram : string)
    (features : Counter) : M Indexer.t Counter :=
  let* ix := get in
  if Indexer.contains ix gram then
    let* i := Indexer.index_of gram in
    ret (counter_set i 1%Z features)
  else if add_to_indexer then
    let* i := Indexer.add_and_get_index gram in
    ret (counter_set i 1%Z features)
  else ret features.

(** A loop that threads the Counter under construction. *)
Fixpoint extract_loop {A} (xs : list A) (gram_of : A -> result string)
    (add_to_indexer : bool) (features : Counter) : M Indexer.t Counter :=
  match xs with
  | [] => ret features
  | x :: xs' =>
      let* gram := lift (gram_of x) in
      let* features' := record_feature add_to_indexer gram features in
      extract_loop xs' gram_of add_to_indexer features'
  end.

Section Extractors.
Context `{Lowercase}.

Definition unigram_at (word : string) : result string := Ok (lower word).

Definition bigram_at (sentence : list string) (i : nat) : result string :=
  match getitem sentence i, getitem sentence (i + 1) with
  | Ok a, Ok b => Ok (lower (a ++ " " ++ b))
  | Raise e, _ => Raise e
  | _, Raise e => Raise e
  end.

Definition trigram_at (sentence : list string) (i : nat) : result string :=
  match getitem sentence i, getitem sentence (i + 1), getitem sentence (i + 2) with
  | Ok a, Ok b, Ok c => Ok (lower (a ++ " " ++ b ++ " " ++ c))
  | Raise e, _, _ => Raise e
  | _, Raise e, _ => Raise e
  | _, _, Raise e => Raise e
  end.

Definition extract_features (fe : FeatureExtractor) (sentence : list string)
    (add_to_indexer : bool) : M Indexer.t Counter :=
  match fe with
  | UnigramFeatureExtractor =>
      extract_loop sentence unigram_at add_to_indexer []
  | BigramFeatureExtractor =>
      extract_loop (range (Z.of_nat (length sentence) - 1))
        (bigram_at sentence) add_to_indexer []
  | BetterFeatureExtractor =>
      extract_loop (range (Z.of_nat (length sentence) - 2))
        (trigram_at sentence) add_to_indexer []
  end.

End Extractors.

Example extract_unigram_love :
  extract_features UnigramFeatureExtractor ["I"; "love"; "it"] true Indexer.empty
  = Ok ([(0, 1%Z); (1, 1%Z); (2, 1%Z)], Indexer.Make ["i"; "love"; "it"]).
Proof. reflexivity. Qed.

(** ** Numbers *)

(** The arithmetic the classifiers use.  Python starts every sum from
    the int [0] and continues in binary64; [of_Z] is the conversion of
    an int that the mixed operations perform.  The one law is that
    [x > x] is false, true of ints, of reals and of every binary64
    value. *)
Class Numeric (num : Type) : Type := {
  of_Z : Z -> num;
  nadd : num -> num -> num;
  nsub : num -> num -> num;
  nmul : num -> num -> num;
  ndiv : num -> num -> num;
  ngtb : num -> num -> bool;
  ngtb_irrefl : forall x, ngtb x x = false
}.

(** [math.exp]: it returns, or raises [OverflowError] when the result is
    out of range, and raises nothing else. *)
Class Exponential (num : Type) : Type := {
  nexp : num -> result num;
  nexp_raises : forall x e, nexp x = Raise e -> e = OverflowError
}.

(** ** The [random] module *)

(** The global generator: [random.seed(a)] for an int [a] replaces its
    state, [_randbelow(n)] draws from [0..n-1] and advances it. *)
Class RandomGen : Type := {
  rng : Type;
  seed : Z -> rng;
  randbelow : nat -> rng -> nat * rng;
  randbelow_lt : forall n g, 0 < n -> fst (randbelow n g) < n
}.

Record SentimentExample : Type := { words : list string; label : Z }.

Section Shuffle.
Context `{RandomGen} {A : Type}.

(** [x[i], x[j] = x[j], x[i]] *)
Definition swap (i j : nat) : M (list A) unit :=
  let* x := get in
  let* xj := lift (getitem x j) in
  let* xi := lift (getitem x i) in
  let* x1 := lift (setitem x i xj) in
  let* x2 := lift (setitem x1 j xi) in
  put x2.

(** [random.shuffle(x)] as CPython defines it:
    [for i in reversed(range(1, len(x))): j = randbelow(i + 1); swap]. *)
Definition shuffle : M (list A * rng) unit :=
  let* n := gets (fun s => length (fst s)) in
  for_each (rev (seq 1 (n - 1))) (fun i =>
    let* j := zoom snd (fun g s => (fst s, g))
                (fun g => Ok (randbelow (i + 1) g)) in
    zoom fst (fun x s => (x, snd s)) (swap i j)).

End Shuffle.

(** ** Classifiers *)

(** The objects a trained classifier refers to: its weight list and its
    featurizer, an extractor of the given class owning an indexer. *)
Record classifier (num : Type) : Type := {
  featurizer : FeatureExtractor;
  indexer : Indexer.t;
  weight_vector : list num
}.
Arguments featurizer {num} c.
Arguments indexer {num} c.
Arguments weight_vector {num} c.

Section Classifiers.
Context `{Lowercase} {num : Type} `{Numeric num}.

Definition set_indexer (ix : Indexer.t) (c : classifier num) : classifier num :=
  {| featurizer := featurizer c; indexer := ix; weight_vector := weight_vector c |}.

Definition set_weight_vector (w : list num) (c : classifier num) : classifier num :=
  {| featurizer := featurizer c; indexer := indexer c; weight_vector := w |}.

(** [self.featurizer.extract_features(sentence, add_to_indexer)] *)
Definition featurize (sentence : list string) (add_to_indexer : bool)
  : M (classifier num) Counter :=
  let* fe := gets featurizer in
  zoom indexer set_indexer (extract_features fe sentence add_to_indexer).

(** [self.weight_vector[f]] *)
Definition weight_at (f : nat) : M (classifier num) num :=
  let* w := gets weight_vector in lift (getitem w f).

(** [self.weight_vector[f] = v] *)
Definition set_weight_at (f : nat) (v : num) : M (classifier num) unit :=
  let* w := gets weight_vector in
  let* w' := lift (setitem w f v) in
  modify (set_weight_vector w').

(** [acc = 0; for f in features: acc += features[f]*self.weight_vector[f]] *)
Fixpoint score_loop (features : Counter) (keys : list nat) (acc : num)
  : M (classifier num) num :=
  match keys with
  | [] => ret acc
  | f :: keys' =>
      let* w := weight_at f in
      score_loop features keys'
        (nadd acc (nmul (of_Z (counter_get features f)) w))
  end.

Definition score (sentence : list string) : M (classifier num) num :=
  let* features := featurize sentence false in
  score_loop features (counter_keys features) (of_Z 0).

Definition TrivialSentimentClassifier_predict (sentence : list string) : Z := 1.

Definition PerceptronClassifier_predict (sentence : list string)
  : M (classifier num) Z :=
  let* predicted_val := score sentence in
  if ngtb predicted_val (of_Z 0) then ret 1%Z else ret 0%Z.

Context `{Exponential num}.

(** [math.exp(p_1_x) / (1+math.exp(p_1_x))]: the two calls, left to
    right. *)
Definition p_1_x (sentence : list string) : M (classifier num) num :=
  let* s := score sentence in
  let* e1 := lift (nexp s) in
  let* e2 := lift (nexp s) in
  ret (ndiv e1 (nadd (of_Z 1) e2)).

(** [1/(1+math.exp(P_1_NEG_X))] *)
Definition p_1_neg_x (sentence : list string) : M (classifier num) num :=
  let* s := score sentence in
  let* e := lift (nexp s) in
  ret (ndiv (of_Z 1) (nadd (of_Z 1) e)).

(** The literal [0.5]. *)
Definition one_half : num := ndiv (of_Z 1) (of_Z 2).

Definition LogisticRegressionClassifier_predict (sentence : list string)
  : M (classifier num) Z :=
  let* P_1_X := p_1_x sentence in
  if ngtb P_1_X one_half then ret 1%Z else ret 0%Z.

End Classifiers.

(** ** Trainers *)

(** The objects a training run shares: the caller's list of examples
    (shuffled in place), the global generator, and the classifier under
    construction.  [lr_classifier.weight_vector] and the local
    [weight_vector] of the trainers are one list object, the cell
    [weight_vector] of [clf]; the extractor passed to a trainer is the
    featurizer of [clf]. *)
Record store `{RandomGen} (num : Type) : Type := {
  train_exs : list SentimentExample;
  global_rng : rng;
  clf : classifier num
}.
Arguments train_exs {_ num} s.
Arguments global_rng {_ num} s.
Arguments clf {_ num} s.

Inductive SentimentClassifier (num : Type) : Type :=
| TrivialSentimentClassifier
| PerceptronClassifier (c : classifier num)
| LogisticRegressionClassifier (c : classifier num).
Arguments TrivialSentimentClassifier {num}.
Arguments PerceptronClassifier {num} c.
Arguments LogisticRegressionClassifier {num} c.

Record Args : Type := { model : string; feats : string }.

Section Trainers.
Context `{Lowercase} {num : Type} `{Numeric num} `{Exponential num} `{RandomGen}.

Definition set_clf (c : classifier num) (s : store num) : store num :=
  {| train_exs := train_exs s; global_rng := global_rng s; clf := c |}.

Definition set_global_rng (g : rng) (s : store num) : store num :=
  {| train_exs := train_exs s; global_rng := g; clf := clf s |}.

Definition set_shuffled (p : list SentimentExample * rng) (s : store num)
  : store num :=
  {| train_exs := fst p; global_rng := snd p; clf := clf s |}.

(** [weight_vector.append(0)] *)
Definition append_zero : M (classifier num) unit :=
  modify (fun c => set_weight_vector (weight_vector c ++ [of_Z 0]) c).

(** [for i in range(len(indexer) - len(weight_vector)): weight_vector.append(0)] *)
Definition grow_weights : M (classifier num) unit :=
  let* c := get in
  for_each
    (range (Z.of_nat (Indexer.size (indexer c))
            - Z.of_nat (length (weight_vector c))))
    (fun _ => append_zero).

(** The literals [0.05] and [0.1]. *)
Definition alpha_perceptron : num := ndiv (of_Z 5) (of_Z 100).
Definition alpha_lr : num := ndiv (of_Z 1) (of_Z 10).

(** The body of the example loop of [train_perceptron]. *)
Definition perceptron_example (train_ex : SentimentExample)
  : M (classifier num) unit :=
  let* p := PerceptronClassifier_predict (words train_ex) in
  if Z.eqb (label train_ex) p then ret tt
  else
    let* features := featurize (words train_ex) true in
    grow_weights ;;
    append_zero ;;
    if Z.eqb (label train_ex) 1 then
      for_each (counter_keys features) (fun word_idx =>
        let* w := weight_at word_idx in
        set_weight_at word_idx
          (nadd w (nmul alpha_perceptron
                     (of_Z (counter_get features word_idx)))))
    else if Z.eqb (label train_ex) 0 then
      for_each (counter_keys features) (fun word_idx =>
        let* w := weight_at word_idx in
        set_weight_at word_idx
          (nsub w (nmul alpha_perceptron
                     (of_Z (counter_get features word_idx)))))
    else ret tt.

(** The two update loops of [train_logistic_regression]: the
    probability is evaluated inside the loop, on the weight list as
    it stands. *)
Definition lr_step_pos (sentence : list string) (f : nat)
  : M (classifier num) unit :=
  let* w := weight_at f in
  let* p := p_1_x sentence in
  set_weight_at f (nadd w (nmul alpha_lr (nsub (of_Z 1) p))).

Definition lr_step_neg (sentence : list string) (f : nat)
  : M (classifier num) unit :=
  let* w := weight_at f in
  let* p := p_1_neg_x sentence in
  set_weight_at f (nsub w (nmul alpha_lr (nsub (of_Z 1) p))).

(** The part of the example loop of [train_logistic_regression] after
    the weight list has been extended. *)
Definition lr_update (train_ex : SentimentExample) (features : Counter)
  : M (classifier num) unit :=
  if Z.eqb (label train_ex) 1 then
    let* p := LogisticRegressionClassifier_predict (words train_ex) in
    if Z.eqb p 1 then ret tt
    else for_each (counter_keys features) (lr_step_pos (words train_ex))
  else
    let* p := LogisticRegressionClassifier_predict (words train_ex) in
    if Z.eqb p 0 then ret tt
    else for_each (counter_keys features) (lr_step_neg (words train_ex)).

(** The body of the example loop of [train_logistic_regression]. *)
Definition lr_example (train_ex : SentimentExample)
  : M (classifier num) unit :=
  let* features := featurize (words train_ex) true in
  grow_weights ;;
  append_zero ;;
  lr_update train_ex features.

(** [random.shuffle(train_exs)] followed by the loop over the examples. *)
Definition epoch (body : SentimentExample -> M (classifier num) unit)
  : M (store num) unit :=
  zoom (fun s => (train_exs s, global_rng s)) set_shuffled shuffle ;;
  let* exs := gets train_exs in
  for_each exs (fun train_ex => zoom clf set_clf (body train_ex)).

(** [weight_vector = [0 for i in range(len(indexer))]] *)
Definition init_weights : M (classifier num) unit :=
  modify (fun c =>
    set_weight_vector
      (map (fun _ => of_Z 0) (range (Z.of_nat (Indexer.size (indexer c))))) c).

Definition train_perceptron : M (store num) (classifier num) :=
  modify (set_global_rng (seed 10)) ;;
  zoom clf set_clf init_weights ;;
  for_each (range 50) (fun _ => epoch perceptron_example) ;;
  gets clf.

Definition train_logistic_regression : M (store num) (classifier num) :=
  modify (set_global_rng (seed 2324)) ;;
  zoom clf set_clf init_weights ;;
  for_each (range 15) (fun _ => epoch lr_example) ;;
  gets clf.

(** [feat_extractor] of [train_model]: [None] or an extractor with a
    fresh [Indexer()]. *)
Definition choose_extractor (args : Args) : result (option FeatureExtractor) :=
  if String.eqb (model args) "TRIVIAL" then Ok None
  else if String.eqb (feats args) "UNIGRAM" then Ok (Some UnigramFeatureExtractor)
  else if String.eqb (feats args) "BIGRAM" then Ok (Some BigramFeatureExtractor)
  else if String.eqb (feats args) "BETTER" then Ok (Some BetterFeatureExtractor)
  else Raise (ConfigError
    "Pass in UNIGRAM, BIGRAM, or BETTER to run the appropriate system").

(** A trainer called on [feat_extractor]; on [None] the call
    [feat_extractor.get_indexer()] has no such attribute. *)
Definition with_extractor (feat_extractor : option FeatureExtractor)
    (trainer : M (store num) (classifier num))
  : M (store num) (classifier num) :=
  match feat_extractor with
  | None => raise AttributeError
  | Some fe =>
      modify (set_clf {| featurizer := fe; indexer := Indexer.empty;
                         weight_vector := [] |}) ;;
      trainer
  end.

Definition train_model (args : Args) : M (store num) (SentimentClassifier num) :=
  let* feat_extractor := lift (choose_extractor args) in
  if String.eqb (model args) "TRIVIAL" then ret TrivialSentimentClassifier
  else if String.eqb (model args) "PERCEPTRON" then
    let* c := with_extractor feat_extractor train_perceptron in
    ret (PerceptronClassifier c)
  else if String.eqb (model args) "LR" then
    let* c := with_extractor feat_extractor train_logistic_regression in
    ret (LogisticRegressionClassifier c)
  else raise (ConfigError
    "Pass in TRIVIAL, PERCEPTRON, or LR to run the appropriate system").

End Trainers.

(** ** Number systems *)

(** Exact real arithmetic, with [math.exp] the real exponential. *)
Definition Rgtb (x y : R) : bool := if Rgt_dec x y then true else false.

Lemma Rgtb_irrefl (x : R) : Rgtb x x = false.
Proof. unfold Rgtb. destruct (Rgt_dec x x); [lra | reflexivity]. Qed.

#[export] Instance R_Numeric : Numeric R := {|
  of_Z := IZR;
  nadd := Rplus;
  nsub := Rminus;
  nmul := Rmult;
  ndiv := Rdiv;
  ngtb := Rgtb;
  ngtb_irrefl := Rgtb_irrefl
|}.

(** [math.exp] over the reals: the real exponential, with the overflow
    of the binary64 function, which raises above the argument
    [0x1.62e42fefa39efp+9] (about 709.78). *)
Definition exp_limit : R := (6243314768165359 / 8796093022208)%R.

Definition exp_R (x : R) : result R :=
  if Rgt_dec x exp_limit then Raise OverflowError else Ok (exp x).

Lemma exp_R_raises (x : R) (e : exn) : exp_R x = Raise e -> e = OverflowError.
Proof. unfold exp_R. destruct (Rgt_dec x exp_limit); congruence. Qed.

Lemma exp_R_returns (x : R) : (x <= 709)%R -> exp_R x = Ok (exp x).
Proof.
  intros Hx. unfold exp_R, exp_limit.
  destruct (Rgt_dec x (6243314768165359 / 8796093022208)); [lra | reflexivity].
Qed.

#[export] Instance R_Exponential : Exponential R := {|
  nexp := exp_R;
  nexp_raises := exp_R_raises
|}.

(** Binary64, the arithmetic of the Python floats.  The ints the code
    converts ([0], [1], [5], [100] and the feature values) are far below
    [2^63], where [of_uint63] is exact. *)
Definition float_of_Z (z : Z) : float :=
  if (z <? 0)%Z then PrimFloat.opp (PrimFloat.of_uint63 (Uint63.of_Z (- z)))
  else PrimFloat.of_uint63 (Uint63.of_Z z).

Definition float_gtb (x y : float) : bool := PrimFloat.ltb y x.

Lemma SFcompare_refl_not_Lt (f : spec_float) : SFcompare f f <> Some Lt.
Proof.
  destruct f as [s | s | | s m e]; simpl; try (destruct s; discriminate).
  - discriminate.
  - rewrite Z.compare_refl, Pos.compare_refl. destruct s; discriminate.
Qed.

Lemma float_gtb_irrefl (x : float) : float_gtb x x = false.
Proof.
  unfold float_gtb. rewrite FloatAxioms.ltb_spec. unfold SFltb.
  pose proof (SFcompare_refl_not_Lt (Prim2SF x)) as Hne.
  destruct (SFcompare (Prim2SF x) (Prim2SF x)) as [[ | | ] | ]; congruence.
Qed.

#[export] Instance float_Numeric : Numeric float := {|
  of_Z := float_of_Z;
  nadd := PrimFloat.add;
  nsub := PrimFloat.sub;
  nmul := PrimFloat.mul;
  ndiv := PrimFloat.div;
  ngtb := float_gtb;
  ngtb_irrefl := float_gtb_irrefl
|}.

(** ** MT19937, the generator behind [random] *)

Module MT19937.

Open Scope Z_scope.

Record state : Type := { mt : list Z; index : nat }.

Definition u32 (x : Z) : Z := Z.land x 0xffffffff.

(** [mt[i]]; every index the generator uses is below 624. *)
Definition word (l : list Z) (i : nat) : Z := default 0 (l !! i).

Definition mix (prev : Z) : Z := Z.lxor prev (Z.shiftr prev 30).

(** [init_genrand(s)] *)
Fixpoint init_genrand_from (n : nat) (i prev : Z) : list Z :=
  match n with
  | O => []
  | S n' =>
      let x := u32 (1812433253 * mix prev + i) in
      x :: init_genrand_from n' (i + 1) x
  end.

Definition init_genrand (s : Z) : list Z :=
  u32 s :: init_genrand_from 623 1 (u32 s).

(** The two loops of [init_by_array(init_key, key_length)]. *)
Fixpoint init_key_loop (k : nat) (key : list Z) (i j : nat) (l : list Z)
  : nat * list Z :=
  match k with
  | O => (i, l)
  | S k' =>
      let v := u32 (Z.lxor (word l i) (mix (word l (i - 1)) * 1664525)
                    + word key j + Z.of_nat j) in
      let l1 := <[i:=v]> l in
      let i1 := (i + 1)%nat in
      let j1 := (j + 1)%nat in
      let '(i2, l2) := if (624 <=? i1)%nat then (1%nat, <[0%nat:=word l1 623]> l1)
                       else (i1, l1) in
      let j2 := if (length key <=? j1)%nat then 0%nat else j1 in
      init_key_loop k' key i2 j2 l2
  end.

Fixpoint init_final_loop (k : nat) (i : nat) (l : list Z) : list Z :=
  match k with
  | O => l
  | S k' =>
      let v := u32 (Z.lxor (word l i) (mix (word l (i - 1)) * 1566083941)
                    - Z.of_nat i) in
      let l1 := <[i:=v]> l in
      let i1 := (i + 1)%nat in
      let '(i2, l2) := if (624 <=? i1)%nat then (1%nat, <[0%nat:=word l1 623]> l1)
                       else (i1, l1) in
      init_final_loop k' i2 l2
  end.

Definition init_by_array (key : list Z) : state :=
  let '(i, l) := init_key_loop (Nat.max 624 (length key)) key 1 0
                   (init_genrand 19650218) in
  {| mt := <[0%nat:=0x80000000]> (init_final_loop 623 i l); index := 624 |}.

(** The 32-bit words of a non-negative int, lowest first; [0] is the
    one word [0]. *)
Fixpoint key_words (fuel : nat) (n : Z) : list Z :=
  match fuel with
  | O => []
  | S fuel' =>
      if n <? 2 ^ 32 then [n]
      else u32 n :: key_words fuel' (Z.shiftr n 32)
  end.

(** [random.seed(a)] for an int [a]: the key is [abs(a)]. *)
Definition seed (a : Z) : state :=
  let n := Z.abs a in
  init_by_array (key_words (S (Z.to_nat (Z.log2 n))) n).

(** One step of the regeneration of the 624 words, in place. *)
Definition twist_at (l : list Z) (kk : nat) : list Z :=
  let y := Z.lor (Z.land (word l kk) 0x80000000)
                 (Z.land (word l ((kk + 1) mod 624)) 0x7fffffff) in
  let mag := if Z.testbit y 0 then 0x9908b0df else 0 in
  <[kk := Z.lxor (Z.lxor (word l ((kk + 397) mod 624)) (Z.shiftr y 1)) mag]> l.

Definition twist (l : list Z) : list Z := fold_left twist_at (seq 0 624) l.

Definition temper (y : Z) : Z :=
  let y1 := Z.lxor y (Z.shiftr y 11) in
  let y2 := Z.lxor y1 (Z.land (Z.shiftl y1 7) 0x9d2c5680) in
  let y3 := Z.lxor y2 (Z.land (Z.shiftl y2 15) 0xefc60000) in
  Z.lxor y3 (Z.shiftr y3 18).

Definition genrand_uint32 (st : state) : Z * state :=
  let st1 := if (624 <=? index st)%nat
             then {| mt := twist (mt st); index := 0 |} else st in
  (temper (word (mt st1) (index st1)),
   {| mt := mt st1; index := S (index st1) |}).

(** [getrandbits(k)] for [k > 0]: [words] 32-bit draws, lowest word
    first, the last one cut to the bits that remain. *)
Fixpoint getrandbits_words (words : nat) (k : Z) (st : state) : Z * state :=
  match words with
  | O => (0, st)
  | S words' =>
      let '(r, st1) := genrand_uint32 st in
      let r1 := if k <? 32 then Z.shiftr r (32 - k) else r in
      let '(hi, st2) := getrandbits_words words' (k - 32) st1 in
      (r1 + Z.shiftl hi 32, st2)
  end.

Definition getrandbits (k : Z) (st : state) : Z * state :=
  getrandbits_words (Z.to_nat ((k - 1) / 32 + 1)) k st.

(** [_randbelow_with_getrandbits(n)]: draw [n.bit_length()] bits until
    the draw is below [n].  The loop is cut after [tries] draws, where
    the model answers [0]. *)
Fixpoint randbelow_loop (tries : nat) (n k : Z) (st : state) : Z * state :=
  match tries with
  | O => (0, st)
  | S tries' =>
      let '(r, st1) := getrandbits k st in
      if r <? n then (r, st1) else randbelow_loop tries' n k st1
  end.

Definition randbelow (n : nat) (st : state) : nat * state :=
  let '(r, st1) := randbelow_loop 1000 (Z.of_nat n) (Z.log2 (Z.of_nat n) + 1) st in
  (Z.to_nat r, st1).

End MT19937.

Lemma MT19937_randbelow_loop_lt (tries : nat) (n k : Z) (st : MT19937.state) :
  (0 < n)%Z -> (fst (MT19937.randbelow_loop tries n k st) < n)%Z.
Proof.
  intros Hn. revert st. induction tries as [ | tries IH]; intros st; simpl.
  - exact Hn.
  - destruct (MT19937.getrandbits k st) as [r st1].
    destruct (r <? n)%Z eqn:Hr.
    + simpl. apply Z.ltb_lt. exact Hr.
    + apply IH.
Qed.

Lemma MT19937_randbelow_lt (n : nat) (st : MT19937.state) :
  0 < n -> fst (MT19937.randbelow n st) < n.
Proof.
  intros Hn. unfold MT19937.randbelow.
  pose proof (MT19937_randbelow_loop_lt 1000 (Z.of_nat n)
                (Z.log2 (Z.of_nat n) + 1) st) as Hlt.
  destruct (MT19937.randbelow_loop 1000 (Z.of_nat n) (Z.log2 (Z.of_nat n) + 1) st)
    as [r st1].
  simpl in *. lia.
Qed.

#[export] Instance MT19937_RandomGen : RandomGen := {|
  rng := MT19937.state;
  seed := MT19937.seed;
  randbelow := MT19937.randbelow;
  randbelow_lt := MT19937_randbelow_lt
|}.

(** The first 32-bit draws after [random.seed(10)], as
    [random.getrandbits(32)] returns them. *)
Example draws_after_seed_10 :
  let '(r1, g1) := MT19937.genrand_uint32 (MT19937.seed 10) in
  let '(r2, g2) := MT19937.genrand_uint32 g1 in
  let '(r3, _) := MT19937.genrand_uint32 g2 in
  [r1; r2; r3] = [2454155475; 139951793; 1842064464]%Z.
Proof. vm_compute. reflexivity. Qed.

(** [random.seed(10)] followed by two shuffles of [[0; 1; 2; 3]]. *)
Example shuffles_after_seed_10 :
  match (shuffle ;; shuffle) ([0; 1; 2; 3], seed 10%Z) with
  | Ok (_, (x, _)) => Some x
  | Raise _ => None
  end = Some [1; 2; 0; 3].
Proof. vm_compute. reflexivity. Qed.

(** * Reasoning rules for the monad *)

(** Expose the state passing of a computation. *)
Ltac unfold_monad :=
  cbv beta iota delta [bind ret gets get put modify lift raise zoom].

Section PostRules.
Context {S : Type}.

Lemma post_ret {A} (a : A) (s : S) (Q : A -> S -> Prop) :
  Q a s -> post (ret a) s Q.
Proof. exact (fun HQ => HQ). Qed.

Lemma post_bind {A B} (c : M S A) (k : A -> M S B) (s : S) (Q : B -> S -> Prop) :
  post c s (fun a s' => post (k a) s' Q) -> post (bind c k) s Q.
Proof.
  unfold post, bind. destruct (c s) as [[a s'] | e]; [ | intros []].
  exact (fun HQ => HQ).
Qed.

Lemma post_bind_inv {A B} (c : M S A) (k : A -> M S B) (s : S) (Q : B -> S -> Prop) :
  post (bind c k) s Q -> post c s (fun a s' => post (k a) s' Q).
Proof.
  unfold post, bind. destruct (c s) as [[a s'] | e]; [ | intros []].
  exact (fun HQ => HQ).
Qed.

Lemma post_mono {A} (c : M S A) (s : S) (Q Q' : A -> S -> Prop) :
  post c s Q -> (forall a s', Q a s' -> Q' a s') -> post c s Q'.
Proof.
  unfold post. destruct (c s) as [[a s'] | e]; [ | intros []].
  intros HQ Himp. apply Himp, HQ.
Qed.

Lemma post_and {A} (c : M S A) (s : S) (Q Q' : A -> S -> Prop) :
  post c s Q -> post c s Q' -> post c s (fun a s' => Q a s' /\ Q' a s').
Proof.
  unfold post. destruct (c s) as [[a s'] | e]; [ | intros []].
  intros HQ HQ'. split; assumption.
Qed.

Lemma post_eq {A} (c : M S A) (s : S) (Q : A -> S -> Prop) :
  post c s Q <-> exists a s', c s = Ok (a, s') /\ Q a s'.
Proof.
  unfold post. split.
  - destruct (c s) as [[a s'] | e]; [ | intros []]. intros HQ. eauto.
  - intros (a & s' & -> & HQ). exact HQ.
Qed.

Lemma post_gets {A} (f : S -> A) (s : S) (Q : A -> S -> Prop) :
  Q (f s) s -> post (gets f) s Q.
Proof. exact (fun HQ => HQ). Qed.

Lemma post_get (s : S) (Q : S -> S -> Prop) : Q s s -> post get s Q.
Proof. exact (fun HQ => HQ). Qed.

Lemma post_modify (f : S -> S) (s : S) (Q : unit -> S -> Prop) :
  Q tt (f s) -> post (modify f) s Q.
Proof. exact (fun HQ => HQ). Qed.

Lemma post_put (s0 s : S) (Q : unit -> S -> Prop) : Q tt s0 -> post (put s0) s Q.
Proof. exact (fun HQ => HQ). Qed.

Lemma post_lift {A} (r : result A) (a : A) (s : S) (Q : A -> S -> Prop) :
  r = Ok a -> Q a s -> post (lift r) s Q.
Proof. intros -> HQ. exact HQ. Qed.

Lemma post_zoom {T A} (proj : S -> T) (upd : T -> S -> S) (c : M T A)
    (s : S) (Q : A -> S -> Prop) :
  post c (proj s) (fun a t => Q a (upd t s)) -> post (zoom proj upd c) s Q.
Proof.
  unfold post, zoom. destruct (c (proj s)) as [[a t] | e]; [ | intros []].
  exact (fun HQ => HQ).
Qed.

(** The loop rule: an invariant indexed by the items still to come. *)
Lemma post_for_each {A} (body : A -> M S unit) (I : list A -> S -> Prop)
    (xs : list A) (s : S) :
  I xs s ->
  (forall x rest s0, I (x :: rest) s0 ->
     post (body x) s0 (fun _ s1 => I rest s1)) ->
  post (for_each xs body) s (fun _ s' => I [] s').
Proof.
  intros Hinit Hstep. revert s Hinit.
  induction xs as [ | x xs IH]; intros s Hinit; simpl.
  - apply post_ret, Hinit.
  - apply post_bind. eapply post_mono; [apply Hstep, Hinit | ].
    intros u s1 Hs1. apply IH, Hs1.
Qed.

Lemma for_each_app {A} (body : A -> M S unit) (xs ys : list A) (s : S) :
  for_each (xs ++ ys)%list body s = (for_each xs body ;; for_each ys body) s.
Proof.
  revert s. induction xs as [ | x xs IH]; intros s; simpl.
  - reflexivity.
  - unfold bind. destruct (body x s) as [[[] s1] | e]; [ | reflexivity].
    rewrite IH. reflexivity.
Qed.

(** The same rules when [OverflowError] may end the computation. *)
Lemma partial_of_post {A} (c : M S A) (s : S) (Q : A -> S -> Prop) :
  post c s Q -> post_or_overflow c s Q.
Proof.
  unfold post, post_or_overflow. destruct (c s) as [[a s'] | e]; [ | intros []].
  exact (fun HQ => HQ).
Qed.

Lemma partial_ret {A} (a : A) (s : S) (Q : A -> S -> Prop) :
  Q a s -> post_or_overflow (ret a) s Q.
Proof. exact (fun HQ => HQ). Qed.

Lemma partial_bind {A B} (c : M S A) (k : A -> M S B) (s : S)
    (Q : B -> S -> Prop) :
  post_or_overflow c s (fun a s' => post_or_overflow (k a) s' Q) ->
  post_or_overflow (bind c k) s Q.
Proof.
  unfold post_or_overflow, bind. destruct (c s) as [[a s'] | e];
    exact (fun HQ => HQ).
Qed.

Lemma partial_mono {A} (c : M S A) (s : S) (Q Q' : A -> S -> Prop) :
  post_or_overflow c s Q -> (forall a s', Q a s' -> Q' a s') ->
  post_or_overflow c s Q'.
Proof.
  unfold post_or_overflow. destruct (c s) as [[a s'] | e].
  - intros HQ Himp. apply Himp, HQ.
  - intros He _. exact He.
Qed.

Lemma partial_zoom {T A} (proj : S -> T) (upd : T -> S -> S) (c : M T A)
    (s : S) (Q : A -> S -> Prop) :
  post_or_overflow c (proj s) (fun a t => Q a (upd t s)) ->
  post_or_overflow (zoom proj upd c) s Q.
Proof.
  unfold post_or_overflow, zoom. destruct (c (proj s)) as [[a t] | e];
    exact (fun HQ => HQ).
Qed.

Lemma partial_for_each {A} (body : A -> M S unit) (I : list A -> S -> Prop)
    (xs : list A) (s : S) :
  I xs s ->
  (forall x rest s0, I (x :: rest) s0 ->
     post_or_overflow (body x) s0 (fun _ s1 => I rest s1)) ->
  post_or_overflow (for_each xs body) s (fun _ s' => I [] s').
Proof.
  intros Hinit Hstep. revert s Hinit.
  induction xs as [ | x xs IH]; intros s Hinit; simpl.
  - apply partial_ret, Hinit.
  - apply partial_bind. eapply partial_mono; [apply Hstep, Hinit | ].
    intros u s1 Hs1. apply IH, Hs1.
Qed.

(** What [post_or_overflow] says of a computation that returned. *)
Lemma partial_returned {A} (c : M S A) (s : S) (Q : A -> S -> Prop)
    (a : A) (s' : S) :
  post_or_overflow c s Q -> c s = Ok (a, s') -> Q a s'.
Proof. unfold post_or_overflow. intros HQ Heq. rewrite Heq in HQ. exact HQ. Qed.

Lemma partial_raised {A} (c : M S A) (s : S) (Q : A -> S -> Prop) (e : exn) :
  post_or_overflow c s Q -> c s = Raise e -> e = OverflowError.
Proof. unfold post_or_overflow. intros HQ Heq. rewrite Heq in HQ. exact HQ. Qed.

End PostRules.

(** * The indexer and the extractors *)

Lemma position_lt (key : string) (l : list string) (i : nat) :
  Indexer.position key l = Some i -> i < length l.
Proof.
  revert i. induction l as [ | o l IH]; intros i; simpl; [discriminate | ].
  destruct (String.eqb key o).
  - intros [= <-]. lia.
  - destruct (Indexer.position key l) as [j | ]; simpl; [ | discriminate].
    intros [= <-]. specialize (IH j eq_refl). lia.
Qed.

Lemma position_app_known (key : string) (l more : list string) (i : nat) :
  Indexer.position key l = Some i ->
  Indexer.position key (l ++ more)%list = Some i.
Proof.
  revert i. induction l as [ | o l IH]; intros i; simpl; [discriminate | ].
  destruct (String.eqb key o); [trivial | ].
  destruct (Indexer.position key l) as [j | ]; simpl; [ | discriminate].
  intros [= <-]. rewrite (IH j eq_refl). reflexivity.
Qed.

Lemma position_app_new (key : string) (l : list string) :
  Indexer.position key l = None ->
  Indexer.position key (l ++ [key])%list = Some (length l).
Proof.
  induction l as [ | o l IH]; simpl.
  - rewrite String.eqb_refl. reflexivity.
  - destruct (String.eqb key o); [discriminate | ].
    destruct (Indexer.position key l) as [j | ]; simpl; [discriminate | ].
    intros _. rewrite IH; reflexivity.
Qed.

Lemma counter_keys_set (k : nat) (v : Z) (c : Counter) (k' : nat) :
  In k' (counter_keys (counter_set k v c)) <-> k' = k \/ In k' (counter_keys c).
Proof.
  unfold counter_keys. induction c as [ | [k0 v0] c IH]; simpl.
  - intuition.
  - destruct (Nat.eqb k k0) eqn:Hk; simpl.
    + apply Nat.eqb_eq in Hk. subst k0. intuition.
    + rewrite IH. intuition.
Qed.

Lemma counter_keys_set_NoDup (k : nat) (v : Z) (c : Counter) :
  List.NoDup (counter_keys c) -> List.NoDup (counter_keys (counter_set k v c)).
Proof.
  unfold counter_keys. induction c as [ | [k0 v0] c IH]; simpl; intros Hnd.
  - constructor; [intros [] | constructor].
  - inversion Hnd as [ | ? ? Hnotin Hnd']; subst.
    destruct (Nat.eqb k k0) eqn:Hk; simpl.
    + apply Nat.eqb_eq in Hk. subst k0. constructor; assumption.
    + constructor; [ | apply IH, Hnd'].
      intros Hin. apply (counter_keys_set k v c k0) in Hin.
      apply Nat.eqb_neq in Hk. destruct Hin as [-> | Hin]; [congruence | ].
      apply Hnotin, Hin.
Qed.

(** Every key of the vector is the index of a string of the indexer. *)
Definition indexed (ix : Indexer.t) (features : Counter) : Prop :=
  forall k, In k (counter_keys features) ->
    exists gram, Indexer.position gram (Indexer.objs ix) = Some k.

(** The indexer only ever grows at its end. *)
Definition extends (ix ix' : Indexer.t) : Prop :=
  exists more, Indexer.objs ix' = (Indexer.objs ix ++ more)%list.

Lemma extends_refl (ix : Indexer.t) : extends ix ix.
Proof. exists []. rewrite app_nil_r. reflexivity. Qed.

Lemma extends_trans (ix1 ix2 ix3 : Indexer.t) :
  extends ix1 ix2 -> extends ix2 ix3 -> extends ix1 ix3.
Proof.
  intros [m1 H1] [m2 H2]. exists (m1 ++ m2)%list.
  rewrite H2, H1, <- app_assoc. reflexivity.
Qed.

Lemma extends_size (ix ix' : Indexer.t) :
  extends ix ix' -> Indexer.size ix <= Indexer.size ix'.
Proof.
  intros [more Hm]. unfold Indexer.size. rewrite Hm, length_app. lia.
Qed.

Lemma indexed_extends (ix ix' : Indexer.t) (features : Counter) :
  extends ix ix' -> indexed ix features -> indexed ix' features.
Proof.
  intros [more Hm] Hix k Hk. destruct (Hix k Hk) as [gram Hg].
  exists gram. rewrite Hm. apply position_app_known, Hg.
Qed.

Lemma indexed_lt (ix : Indexer.t) (features : Counter) (k : nat) :
  indexed ix features -> In k (counter_keys features) -> k < Indexer.size ix.
Proof.
  intros Hix Hk. destruct (Hix k Hk) as [gram Hg].
  apply position_lt in Hg. exact Hg.
Qed.

(** What one n-gram does to the vector and to the indexer. *)
Definition extraction_post (add_to_indexer : bool) (ix : Indexer.t)
    (features : Counter) (ix' : Indexer.t) : Prop :=
  indexed ix' features /\ List.NoDup (counter_keys features)
  /\ extends ix ix' /\ (add_to_indexer = false -> ix' = ix).

Lemma record_feature_post (add_to_indexer : bool) (gram : string)
    (features : Counter) (ix : Indexer.t) :
  indexed ix features -> List.NoDup (counter_keys features) ->
  post (record_feature add_to_indexer gram features) ix
       (fun features' ix' => extraction_post add_to_indexer ix features' ix').
Proof.
  intros Hix Hnd. unfold record_feature, post, bind, get, Indexer.contains,
    Indexer.index_of, Indexer.add_and_get_index, ret, extraction_post.
  destruct (Indexer.position gram (Indexer.objs ix)) as [i | ] eqn:Hpos.
  - rewrite Hpos. split; [ | split; [apply counter_keys_set_NoDup, Hnd | split;
                        [apply extends_refl | reflexivity]]].
    intros k Hk. apply counter_keys_set in Hk. destruct Hk as [-> | Hk].
    + exists gram. exact Hpos.
    + apply Hix, Hk.
  - destruct add_to_indexer.
    + rewrite Hpos.
      split; [ | split; [apply counter_keys_set_NoDup, Hnd | split;
                          [exists [gram]; reflexivity | discriminate]]].
      intros k Hk. apply counter_keys_set in Hk. destruct Hk as [-> | Hk].
      * exists gram. simpl. apply position_app_new, Hpos.
      * destruct (Hix k Hk) as [g Hg]. exists g. simpl.
        apply position_app_known, Hg.
    + split; [exact Hix | split; [exact Hnd | split;
                                   [apply extends_refl | reflexivity]]].
Qed.

Lemma extract_loop_post {A} (xs : list A) (gram_of : A -> result string)
    (add_to_indexer : bool) (features : Counter) (ix : Indexer.t) :
  (forall x, In x xs -> exists gram, gram_of x = Ok gram) ->
  indexed ix features -> List.NoDup (counter_keys features) ->
  post (extract_loop xs gram_of add_to_indexer features) ix
       (fun features' ix' => extraction_post add_to_indexer ix features' ix').
Proof.
  revert features ix. induction xs as [ | x xs IH]; intros features ix Hok Hix Hnd.
  - simpl. apply post_ret.
    split; [exact Hix | split; [exact Hnd | split;
                                 [apply extends_refl | reflexivity]]].
  - simpl. destruct (Hok x (or_introl eq_refl)) as [gram Hgram].
    apply post_bind. eapply post_lift; [exact Hgram | ].
    apply post_bind.
    eapply post_mono; [apply record_feature_post; assumption | ].
    intros f1 ix1 (Hix1 & Hnd1 & Hext1 & Hsame1).
    eapply post_mono;
      [apply IH; [intros y Hy; apply Hok; right; exact Hy | exact Hix1 | exact Hnd1] | ].
    intros f2 ix2 (Hix2 & Hnd2 & Hext2 & Hsame2).
    split; [exact Hix2 | split; [exact Hnd2 | split;
                                   [eapply extends_trans; eassumption | ]]].
    intros Hadd. rewrite (Hsame2 Hadd). apply Hsame1, Hadd.
Qed.

Lemma getitem_lt {A} (l : list A) (i : nat) :
  i < length l -> exists x, getitem l i = Ok x.
Proof.
  intros Hi. unfold getitem.
  destruct (lookup_lt_is_Some_2 l i Hi) as [x ->]. eauto.
Qed.

Lemma in_range (n : Z) (i : nat) : In i (range n) -> (Z.of_nat i < n)%Z.
Proof. unfold range. rewrite in_seq. lia. Qed.

Lemma bigram_at_ok `{Lowercase} (sentence : list string) (i : nat) :
  In i (range (Z.of_nat (length sentence) - 1)) ->
  exists gram, bigram_at sentence i = Ok gram.
Proof.
  intros Hi. apply in_range in Hi. unfold bigram_at.
  destruct (getitem_lt sentence i) as [a ->]; [lia | ].
  destruct (getitem_lt sentence (i + 1)) as [b ->]; [lia | ]. eauto.
Qed.

Lemma trigram_at_ok `{Lowercase} (sentence : list string) (i : nat) :
  In i (range (Z.of_nat (length sentence) - 2)) ->
  exists gram, trigram_at sentence i = Ok gram.
Proof.
  intros Hi. apply in_range in Hi. unfold trigram_at.
  destruct (getitem_lt sentence i) as [a ->]; [lia | ].
  destruct (getitem_lt sentence (i + 1)) as [b ->]; [lia | ].
  destruct (getitem_lt sentence (i + 2)) as [c ->]; [lia | ]. eauto.
Qed.

Lemma extract_features_post `{Lowercase} (fe : FeatureExtractor) (sentence : list string)
    (add_to_indexer : bool) (ix : Indexer.t) :
  post (extract_features fe sentence add_to_indexer) ix
       (fun features ix' => extraction_post add_to_indexer ix features ix').
Proof.
  assert (Hnil : indexed ix []) by (intros k []).
  destruct fe; simpl; apply extract_loop_post;
    try exact Hnil; try constructor.
  - intros w _. unfold unigram_at. eauto.
  - apply bigram_at_ok.
  - apply trigram_at_ok.
Qed.

(** C5.  On ["I"; "love"; "it"], in growth mode and from an empty
    indexer, the unigram extractor returns three features of value 1,
    the bigram extractor the two features "i love" and "love it", the
    trigram extractor the one feature "i love it"; on a sentence of one
    token the bigram and trigram extractors return the empty vector
    without raising, whatever the token, the mode and the indexer. *)
Theorem extractor_arity :
  extract_features UnigramFeatureExtractor ["I"; "love"; "it"] true Indexer.empty
    = Ok ([(0, 1%Z); (1, 1%Z); (2, 1%Z)], Indexer.Make ["i"; "love"; "it"])
  /\ extract_features BigramFeatureExtractor ["I"; "love"; "it"] true Indexer.empty
    = Ok ([(0, 1%Z); (1, 1%Z)], Indexer.Make ["i love"; "love it"])
  /\ extract_features BetterFeatureExtractor ["I"; "love"; "it"] true Indexer.empty
    = Ok ([(0, 1%Z)], Indexer.Make ["i love it"])
  /\ forall (L : Lowercase) (token : string) (add_to_indexer : bool)
       (ix : Indexer.t),
       @extract_features L BigramFeatureExtractor [token] add_to_indexer ix
         = Ok ([], ix)
       /\ @extract_features L BetterFeatureExtractor [token] add_to_indexer ix
          = Ok ([], ix).
Proof.
  split; [reflexivity | ]. split; [reflexivity | ]. split; [reflexivity | ].
  intros L token add_to_indexer ix. split; reflexivity.
Qed.

(** C7.  In inference mode every extractor returns without raising and
    leaves the indexer as it was, and every key of the vector it returns
    is the index of a string the indexer already contained: an n-gram
    the indexer does not know gets no entry. *)
Theorem unknown_features_dropped `{Lowercase} (fe : FeatureExtractor)
    (sentence : list string) (ix : Indexer.t) :
  exists features,
    extract_features fe sentence false ix = Ok (features, ix)
    /\ forall k, In k (counter_keys features) ->
         exists gram, Indexer.contains ix gram = true
                      /\ Indexer.index_of gram ix = Ok (k, ix).
Proof.
  pose proof (extract_features_post fe sentence false ix) as Hpost.
  apply post_eq in Hpost.
  destruct Hpost as (features & ix' & Hrun & Hix & _ & _ & Hsame).
  specialize (Hsame eq_refl). subst ix'.
  exists features. split; [exact Hrun | ].
  intros k Hk. destruct (Hix k Hk) as [gram Hgram].
  exists gram. unfold Indexer.contains, Indexer.index_of.
  rewrite Hgram. split; reflexivity.
Qed.

(** * The classifiers *)

Section ClassifierFacts.
Context `{Lowercase} {num : Type} `{Numeric num}.

Lemma set_indexer_same (c : classifier num) : set_indexer (indexer c) c = c.
Proof. destruct c; reflexivity. Qed.

(** Extraction through a classifier touches the indexer only. *)
Lemma featurize_post (sentence : list string) (add_to_indexer : bool)
    (c : classifier num) :
  post (featurize sentence add_to_indexer) c (fun features c' =>
    c' = set_indexer (indexer c') c
    /\ extraction_post add_to_indexer (indexer c) features (indexer c')).
Proof.
  unfold featurize, post, bind, gets, zoom.
  pose proof (extract_features_post (featurizer c) sentence add_to_indexer
                (indexer c)) as Hpost.
  unfold post in Hpost.
  destruct (extract_features (featurizer c) sentence add_to_indexer (indexer c))
    as [[features ix'] | e]; [ | exact Hpost].
  split; [reflexivity | exact Hpost].
Qed.

Lemma featurize_inference (sentence : list string) (c : classifier num) :
  post (featurize sentence false) c (fun features c' =>
    c' = c /\ indexed (indexer c) features
    /\ List.NoDup (counter_keys features)
    /\ extract_features (featurizer c) sentence false (indexer c)
       = Ok (features, indexer c)).
Proof.
  unfold featurize, post, bind, gets, zoom.
  pose proof (extract_features_post (featurizer c) sentence false (indexer c))
    as Hpost.
  unfold post in Hpost.
  destruct (extract_features (featurizer c) sentence false (indexer c))
    as [[features ix'] | e]; [ | exact Hpost].
  destruct Hpost as (Hix & Hnd & _ & Hsame). specialize (Hsame eq_refl).
  subst ix'. rewrite set_indexer_same. auto.
Qed.

(** The sum the score loop accumulates, read off the weight list. *)
Definition score_sum (features : Counter) (w : list num) (keys : list nat)
    (acc : num) : num :=
  fold_left (fun a f => nadd a (nmul (of_Z (counter_get features f))
                                     (nth f w (of_Z 0)))) keys acc.

Lemma getitem_nth {A} (l : list A) (i : nat) (d : A) :
  i < length l -> getitem l i = Ok (nth i l d).
Proof.
  intros Hi. unfold getitem.
  destruct (lookup_lt_is_Some_2 l i Hi) as [x Hx].
  rewrite Hx. f_equal. symmetry. apply nth_lookup_Some, Hx.
Qed.

Lemma score_loop_eq (features : Counter) (keys : list nat) (acc : num)
    (c : classifier num) :
  (forall k, In k keys -> k < length (weight_vector c)) ->
  score_loop features keys acc c
  = Ok (score_sum features (weight_vector c) keys acc, c).
Proof.
  revert acc. induction keys as [ | f keys IH]; intros acc Hlt.
  - reflexivity.
  - cbn [score_loop]. unfold weight_at. unfold_monad.
    rewrite (getitem_nth (weight_vector c) f (of_Z 0));
      [ | apply Hlt; left; reflexivity].
    apply IH. intros k Hk. apply Hlt. right. exact Hk.
Qed.

(** A classifier whose weight list covers every index of its indexer. *)
Definition covers (c : classifier num) : Prop :=
  Indexer.size (indexer c) <= length (weight_vector c).

Lemma score_eq (sentence : list string) (c : classifier num) :
  covers c ->
  exists features,
    extract_features (featurizer c) sentence false (indexer c)
      = Ok (features, indexer c)
    /\ List.NoDup (counter_keys features)
    /\ score sentence c
       = Ok (score_sum features (weight_vector c) (counter_keys features)
               (of_Z 0), c).
Proof.
  intros Hcov. pose proof (featurize_inference sentence c) as Hf.
  apply post_eq in Hf. destruct Hf as (features & c' & Hrun & -> & Hix & Hnd & Hex).
  exists features. split; [exact Hex | ]. split; [exact Hnd | ].
  unfold score. unfold bind. rewrite Hrun. apply score_loop_eq.
  intros k Hk. pose proof (indexed_lt _ _ _ Hix Hk). unfold covers in Hcov. lia.
Qed.

Lemma extract_empty (fe : FeatureExtractor) (add_to_indexer : bool)
    (ix : Indexer.t) :
  extract_features fe [] add_to_indexer ix = Ok ([], ix).
Proof. destruct fe; reflexivity. Qed.

Lemma score_empty (c : classifier num) : score [] c = Ok (of_Z 0, c).
Proof.
  unfold score, featurize. unfold_monad.
  rewrite extract_empty, set_indexer_same. reflexivity.
Qed.

End ClassifierFacts.

Section Prediction.
Context `{Lowercase} {num : Type} `{Numeric num}.

(** The score as the spec words it: the sum of [features[i] * weights[i]]
    over the entries of the sparse vector, accumulated from 0 in the
    order of the entries. *)
Definition dot_product (features : Counter) (w : list num) : num :=
  fold_left (fun acc kv => nadd acc (nmul (of_Z (snd kv)) (nth (fst kv) w (of_Z 0))))
    features (of_Z 0).

Lemma counter_get_in (features : Counter) (k : nat) (v : Z) :
  List.NoDup (counter_keys features) -> In (k, v) features ->
  counter_get features k = v.
Proof.
  unfold counter_keys.
  induction features as [ | [k0 v0] features IH]; simpl; intros Hnd Hin; [tauto | ].
  inversion Hnd as [ | ? ? Hnotin Hnd']; subst.
  destruct Hin as [[= -> ->] | Hin].
  - rewrite Nat.eqb_refl. reflexivity.
  - destruct (Nat.eqb k k0) eqn:Hk.
    + apply Nat.eqb_eq in Hk. subst k0. exfalso. apply Hnotin.
      apply (in_map fst) in Hin. exact Hin.
    + apply IH; assumption.
Qed.

Lemma score_sum_entries (features : Counter) (w : list num)
    (entries : list (nat * Z)) (acc : num) :
  (forall k v, In (k, v) entries -> counter_get features k = v) ->
  score_sum features w (map fst entries) acc
  = fold_left (fun a kv => nadd a (nmul (of_Z (snd kv)) (nth (fst kv) w (of_Z 0))))
      entries acc.
Proof.
  unfold score_sum. revert acc.
  induction entries as [ | [k v] entries IH]; intros acc Hget; simpl.
  - reflexivity.
  - rewrite (Hget k v (or_introl eq_refl)). apply IH.
    intros k' v' Hin. apply Hget. right. exact Hin.
Qed.

Lemma score_sum_dot_product (features : Counter) (w : list num) :
  List.NoDup (counter_keys features) ->
  score_sum features w (counter_keys features) (of_Z 0) = dot_product features w.
Proof.
  intros Hnd. unfold dot_product, counter_keys. apply score_sum_entries.
  intros k v Hin. apply counter_get_in; assumption.
Qed.

End Prediction.

(** C6.  For a classifier whose weight list covers its indexer,
    [PerceptronClassifier.predict] extracts in inference mode (the
    classifier and its indexer are left as they were), takes the dot
    product of the sparse vector with the weights as its score, and
    returns 1 when the score is greater than 0 and 0 otherwise; a score
    equal to 0 gives class 0. *)
Theorem perceptron_predict_sign `{Lowercase} {num : Type} `{Numeric num}
    (c : classifier num) (sentence : list string) :
  covers c ->
  exists features,
    extract_features (featurizer c) sentence false (indexer c)
      = Ok (features, indexer c)
    /\ PerceptronClassifier_predict sentence c
       = Ok (if ngtb (dot_product features (weight_vector c)) (of_Z 0)
             then 1%Z else 0%Z, c)
    /\ (dot_product features (weight_vector c) = of_Z 0 ->
        PerceptronClassifier_predict sentence c = Ok (0%Z, c)).
Proof.
  intros Hcov. destruct (score_eq sentence c Hcov) as (features & Hex & Hnd & Hscore).
  rewrite score_sum_dot_product in Hscore by exact Hnd.
  assert (Hpredict : PerceptronClassifier_predict sentence c
            = Ok (if ngtb (dot_product features (weight_vector c)) (of_Z 0)
                  then 1%Z else 0%Z, c)).
  { unfold PerceptronClassifier_predict. unfold bind. rewrite Hscore.
    destruct (ngtb (dot_product features (weight_vector c)) (of_Z 0)); reflexivity. }
  exists features. split; [exact Hex | ]. split; [exact Hpredict | ].
  intros Htie. rewrite Hpredict, Htie, ngtb_irrefl. reflexivity.
Qed.

(** A classifier that knows two words, with weights 1 and -1. *)
Definition good_bad_classifier : classifier float :=
  {| featurizer := UnigramFeatureExtractor;
     indexer := Indexer.Make ["good"; "bad"];
     weight_vector := [1%float; (-1)%float; 0%float] |}.

Lemma perceptron_predict_sign_witness :
  covers good_bad_classifier
  /\ PerceptronClassifier_predict ["Good"; "movie"] good_bad_classifier
     = Ok (1%Z, good_bad_classifier)
  /\ PerceptronClassifier_predict ["good"; "bad"] good_bad_classifier
     = Ok (0%Z, good_bad_classifier).
Proof.
  assert (Hcov : covers good_bad_classifier)
    by (unfold covers, good_bad_classifier, Indexer.size; simpl; lia).
  split; [exact Hcov | ]. split.
  - destruct (perceptron_predict_sign good_bad_classifier ["Good"; "movie"] Hcov)
      as (features & Hex & Hpredict & _).
    vm_compute in Hex. injection Hex as <-. exact Hpredict.
  - destruct (perceptron_predict_sign good_bad_classifier ["good"; "bad"] Hcov)
      as (features & Hex & _ & Htie).
    vm_compute in Hex. injection Hex as <-. apply Htie. reflexivity.
Defined.

Section ProbabilityFacts.
Context `{Lowercase} {num : Type} `{Numeric num} `{Exponential num}.

(** The two probabilities, from the score and what [math.exp] makes of
    it. *)
Lemma p_1_x_eq (sentence : list string) (c c' : classifier num) (s : num) :
  score sentence c = Ok (s, c') ->
  p_1_x sentence c
  = match nexp s with
    | Ok e => Ok (ndiv e (nadd (of_Z 1) e), c')
    | Raise err => Raise err
    end.
Proof.
  intros Hs. unfold p_1_x. unfold_monad. rewrite Hs.
  destruct (nexp s) as [e | err]; reflexivity.
Qed.

Lemma p_1_neg_x_eq (sentence : list string) (c c' : classifier num) (s : num) :
  score sentence c = Ok (s, c') ->
  p_1_neg_x sentence c
  = match nexp s with
    | Ok e => Ok (ndiv (of_Z 1) (nadd (of_Z 1) e), c')
    | Raise err => Raise err
    end.
Proof.
  intros Hs. unfold p_1_neg_x. unfold_monad. rewrite Hs.
  destruct (nexp s) as [e | err]; reflexivity.
Qed.

End ProbabilityFacts.






(** C10.  On the empty sentence every extractor returns the empty
    vector, in either mode; [PerceptronClassifier.predict] returns 0;
    over the reals [p_1_x] returns exactly 1/2 and the logistic
    regression [predict] returns 0; all of this for any weight list and
    any indexer, the classifier being left as it was. *)
Theorem empty_sentence `{Lowercase} :
  (forall (fe : FeatureExtractor) (add_to_indexer : bool) (ix : Indexer.t),
     extract_features fe [] add_to_indexer ix = Ok ([], ix))
  /\ (forall (num : Type) (N : Numeric num) (c : classifier num),
        PerceptronClassifier_predict [] c = Ok (0%Z, c))
  /\ (forall c : classifier R,
        p_1_x [] c = Ok ((1 / 2)%R, c)
        /\ LogisticRegressionClassifier_predict [] c = Ok (0%Z, c)).
Proof.
  split; [apply @extract_empty | ]. split.
  - intros num N c. unfold PerceptronClassifier_predict. unfold bind.
    rewrite score_empty, ngtb_irrefl. reflexivity.
  - intros c.
    assert (Hp : p_1_x [] c = Ok ((1 / 2)%R, c)).
    { rewrite (p_1_x_eq _ _ _ _ (score_empty c)).
      change (nexp (of_Z 0)) with (exp_R 0). rewrite exp_R_returns by lra.
      do 2 f_equal. simpl. rewrite exp_0. lra. }
    split; [exact Hp | ].
    unfold LogisticRegressionClassifier_predict. unfold bind. rewrite Hp.
    unfold one_half. simpl. rewrite Rgtb_irrefl. reflexivity.
Qed.

(** * The per-example updates *)

Section UpdateFacts.
Context `{Lowercase} {num : Type} `{Numeric num}.

(** The classifier keeps its extractor, its indexer and the length of
    its weight list: only weights change. *)
Definition same_shape (c c' : classifier num) : Prop :=
  featurizer c' = featurizer c /\ indexer c' = indexer c
  /\ length (weight_vector c') = length (weight_vector c).

Lemma same_shape_refl (c : classifier num) : same_shape c c.
Proof. repeat split. Qed.

Lemma same_shape_trans (c1 c2 c3 : classifier num) :
  same_shape c1 c2 -> same_shape c2 c3 -> same_shape c1 c3.
Proof. unfold same_shape. intros (? & ? & ?) (? & ? & ?). repeat split; congruence. Qed.

Lemma same_shape_covers (c c' : classifier num) :
  same_shape c c' -> covers c -> covers c'.
Proof. unfold same_shape, covers. intros (_ & -> & ->). trivial. Qed.

Lemma weight_at_eq (f : nat) (c : classifier num) :
  f < length (weight_vector c) ->
  weight_at f c = Ok (nth f (weight_vector c) (of_Z 0), c).
Proof.
  intros Hf. unfold weight_at. unfold_monad.
  rewrite (getitem_nth _ _ (of_Z 0) Hf). reflexivity.
Qed.

Lemma set_weight_at_eq (f : nat) (v : num) (c : classifier num) :
  f < length (weight_vector c) ->
  set_weight_at f v c
  = Ok (tt, set_weight_vector (<[f:=v]> (weight_vector c)) c).
Proof.
  intros Hf. unfold set_weight_at, setitem. unfold_monad.
  destruct (decide (f < length (weight_vector c))); [reflexivity | contradiction].
Qed.

(** [weight_vector[f] += d] and [weight_vector[f] -= d] *)
Lemma bump_weight_eq (op : num -> num -> num) (d : num) (f : nat)
    (c : classifier num) :
  f < length (weight_vector c) ->
  (let* w := weight_at f in set_weight_at f (op w d)) c
  = Ok (tt, set_weight_vector
              (<[f:=op (nth f (weight_vector c) (of_Z 0)) d]> (weight_vector c)) c).
Proof.
  intros Hf. unfold bind. rewrite (weight_at_eq f c Hf).
  apply set_weight_at_eq, Hf.
Qed.

Lemma set_weight_same_shape (f : nat) (v : num) (c : classifier num) :
  same_shape c (set_weight_vector (<[f:=v]> (weight_vector c)) c).
Proof. unfold same_shape. simpl. rewrite length_insert. repeat split. Qed.

(** A loop of weight updates keeps the shape, provided each step does. *)
Lemma update_loop_post (step : nat -> M (classifier num) unit)
    (keys : list nat) (c : classifier num) :
  (forall k c0, same_shape c c0 -> k < length (weight_vector c0) ->
     post (step k) c0 (fun _ c1 => same_shape c0 c1)) ->
  (forall k, In k keys -> k < length (weight_vector c)) ->
  post (for_each keys step) c (fun _ c' => same_shape c c').
Proof.
  intros Hstep Hkeys.
  pose (I := fun (rest : list nat) (c0 : classifier num) =>
               (forall k, In k rest -> k < length (weight_vector c)) /\ same_shape c c0).
  eapply post_mono.
  - apply (post_for_each step I keys c).
    + split; [exact Hkeys | apply same_shape_refl].
    + intros k rest c0 [Hrest Hshape].
      eapply post_mono.
      * apply Hstep; [exact Hshape | ].
        destruct Hshape as (_ & _ & ->). apply Hrest. left. reflexivity.
      * intros u c1 Hc1. split.
        -- intros k' Hk'. apply Hrest. right. exact Hk'.
        -- eapply same_shape_trans; eassumption.
  - intros u c' [_ Hshape]. exact Hshape.
Qed.

(** ** Growth of the weight list *)

Lemma set_weight_vector_same (c : classifier num) :
  set_weight_vector (weight_vector c) c = c.
Proof. destruct c; reflexivity. Qed.

Lemma append_zeros (n a : nat) (c : classifier num) :
  for_each (seq a n) (fun _ => append_zero) c
  = Ok (tt, set_weight_vector (weight_vector c ++ replicate n (of_Z 0)) c).
Proof.
  revert a c. induction n as [ | n IH]; intros a c; simpl.
  - rewrite app_nil_r, set_weight_vector_same. reflexivity.
  - unfold bind, append_zero at 1, modify. rewrite IH. simpl.
    rewrite <- app_assoc. reflexivity.
Qed.

(** The weight list after the growth loop and the append that follows it. *)
Definition extended (c : classifier num) : classifier num :=
  set_weight_vector
    (weight_vector c
     ++ replicate (Indexer.size (indexer c) - length (weight_vector c)) (of_Z 0)
     ++ [of_Z 0]) c.

Lemma grow_then_append (c : classifier num) :
  (grow_weights ;; append_zero) c = Ok (tt, extended c).
Proof.
  unfold grow_weights, range. unfold bind, get.
  rewrite append_zeros. unfold append_zero, modify, extended. simpl.
  rewrite <- app_assoc.
  replace (Z.to_nat (Z.of_nat (Indexer.size (indexer c))
                     - Z.of_nat (length (weight_vector c))))
    with (Indexer.size (indexer c) - length (weight_vector c)) by lia.
  reflexivity.
Qed.

Lemma extended_length (c : classifier num) :
  length (weight_vector (extended c))
  = Nat.max (length (weight_vector c)) (Indexer.size (indexer c)) + 1.
Proof.
  unfold extended. simpl. rewrite !length_app, length_replicate. simpl. lia.
Qed.

(** ** The perceptron update *)

Lemma predict_perceptron_post (sentence : list string) (c : classifier num) :
  covers c -> exists p, PerceptronClassifier_predict sentence c = Ok (p, c).
Proof.
  intros Hcov. destruct (score_eq sentence c Hcov) as (features & _ & _ & Hscore).
  unfold PerceptronClassifier_predict. unfold bind. rewrite Hscore.
  destruct (ngtb _ _); unfold ret; eauto.
Qed.

(** What an example leaves behind, whether it was skipped or not. *)
Definition example_post (c c' : classifier num) : Prop :=
  covers c' /\ featurizer c' = featurizer c
  /\ extends (indexer c) (indexer c')
  /\ length (weight_vector c) <= length (weight_vector c').

Lemma example_post_refl (c : classifier num) : covers c -> example_post c c.
Proof.
  intros Hcov. unfold example_post.
  split; [exact Hcov | split; [reflexivity | split; [apply extends_refl | lia]]].
Qed.

(** What extraction in growth mode followed by the growth of the
    weights hands to the update. *)
Definition grown (c : classifier num) (features : Counter)
    (c' : classifier num) : Prop :=
  example_post c c'
  /\ length (weight_vector c')
     = Nat.max (length (weight_vector c)) (Indexer.size (indexer c')) + 1
  /\ List.NoDup (counter_keys features)
  /\ forall k, In k (counter_keys features) -> k < length (weight_vector c').

Lemma extract_and_grow (sentence : list string)
    (k : Counter -> M (classifier num) unit) (c : classifier num)
    (Q : unit -> classifier num -> Prop) :
  (forall features c', grown c features c' -> post (k features) c' Q) ->
  post (let* features := featurize sentence true in
        grow_weights ;; append_zero ;; k features) c Q.
Proof.
  intros Hk. apply post_bind. eapply post_mono; [apply featurize_post | ].
  intros features c1 (Hc1 & Hix & Hnd & Hext & _).
  pose proof (grow_then_append c1) as Hgrow.
  unfold post, bind in *.
  destruct (grow_weights c1) as [[[] c2] | e]; [ | discriminate].
  rewrite Hgrow. apply Hk.
  pose proof (extended_length c1) as Hlen.
  assert (Hw : weight_vector c1 = weight_vector c) by (rewrite Hc1; reflexivity).
  assert (Hfe : featurizer c1 = featurizer c) by (rewrite Hc1; reflexivity).
  rewrite Hw in Hlen. unfold grown, example_post, covers.
  change (indexer (extended c1)) with (indexer c1).
  change (featurizer (extended c1)) with (featurizer c1).
  split; [split; [lia | split; [exact Hfe | split; [exact Hext | lia]]] | ].
  split; [exact Hlen | split; [exact Hnd | ]].
  intros f Hf. pose proof (indexed_lt _ _ _ Hix Hf). lia.
Qed.

Lemma extract_and_grow_partial (sentence : list string)
    (k : Counter -> M (classifier num) unit) (c : classifier num)
    (Q : unit -> classifier num -> Prop) :
  (forall features c', grown c features c' -> post_or_overflow (k features) c' Q) ->
  post_or_overflow (let* features := featurize sentence true in
        grow_weights ;; append_zero ;; k features) c Q.
Proof.
  intros Hk. apply partial_bind.
  eapply partial_mono; [apply partial_of_post, featurize_post | ].
  intros features c1 (Hc1 & Hix & Hnd & Hext & _).
  pose proof (grow_then_append c1) as Hgrow.
  unfold post, post_or_overflow, bind in *.
  destruct (grow_weights c1) as [[[] c2] | e]; [ | discriminate].
  rewrite Hgrow. apply Hk.
  pose proof (extended_length c1) as Hlen.
  assert (Hw : weight_vector c1 = weight_vector c) by (rewrite Hc1; reflexivity).
  assert (Hfe : featurizer c1 = featurizer c) by (rewrite Hc1; reflexivity).
  rewrite Hw in Hlen. unfold grown, example_post, covers.
  change (indexer (extended c1)) with (indexer c1).
  change (featurizer (extended c1)) with (featurizer c1).
  split; [split; [lia | split; [exact Hfe | split; [exact Hext | lia]]] | ].
  split; [exact Hlen | split; [exact Hnd | ]].
  intros f Hf. pose proof (indexed_lt _ _ _ Hix Hf). lia.
Qed.

Lemma grown_same_shape (c : classifier num) (features : Counter)
    (c1 c2 : classifier num) :
  grown c features c1 -> same_shape c1 c2 ->
  example_post c c2
  /\ length (weight_vector c2)
     = Nat.max (length (weight_vector c)) (Indexer.size (indexer c2)) + 1.
Proof.
  unfold grown, example_post, covers, same_shape.
  intros ((Hcov & Hfe & Hext & Hle) & Hlen & _) (Hfe2 & Hix2 & Hlen2).
  rewrite Hfe2, Hix2, Hlen2. auto 6.
Qed.

(** An example of the perceptron is skipped, or the weight list ends
    one longer than what covers the indexer. *)
Lemma perceptron_example_post (train_ex : SentimentExample) (c : classifier num) :
  covers c ->
  post (perceptron_example train_ex) c (fun _ c' =>
    example_post c c'
    /\ (c' = c
        \/ length (weight_vector c')
           = Nat.max (length (weight_vector c)) (Indexer.size (indexer c')) + 1)).
Proof.
  intros Hcov. unfold perceptron_example. apply post_bind.
  destruct (predict_perceptron_post (words train_ex) c Hcov) as [p Hp].
  unfold post at 1. rewrite Hp.
  destruct (Z.eqb (label train_ex) p).
  - apply post_ret. split; [apply example_post_refl, Hcov | left; reflexivity].
  - apply extract_and_grow. intros features c1 Hgrown.
    assert (Hloop : forall op : num -> num -> num,
              post (for_each (counter_keys features) (fun word_idx =>
                      let* w := weight_at word_idx in
                      set_weight_at word_idx
                        (op w (nmul alpha_perceptron
                                 (of_Z (counter_get features word_idx))))))
                   c1 (fun _ c2 => same_shape c1 c2)).
    { intros op. apply update_loop_post; [ | apply Hgrown].
      intros f c0 _ Hf. unfold post. rewrite (bump_weight_eq op _ f c0 Hf).
      apply set_weight_same_shape. }
    destruct (Z.eqb (label train_ex) 1);
      [ | destruct (Z.eqb (label train_ex) 0)].
    + eapply post_mono; [apply (Hloop nadd) | ].
      intros u c2 Hshape. destruct (grown_same_shape _ _ _ _ Hgrown Hshape). auto.
    + eapply post_mono; [apply (Hloop nsub) | ].
      intros u c2 Hshape. destruct (grown_same_shape _ _ _ _ Hgrown Hshape). auto.
    + apply post_ret.
      destruct (grown_same_shape _ _ _ _ Hgrown (same_shape_refl c1)). auto.
Qed.

(** ** The logistic regression update *)

Context `{Exponential num}.

Lemma score_post (sentence : list string) (c : classifier num) :
  covers c -> exists s, score sentence c = Ok (s, c).
Proof. intros Hcov. destruct (score_eq sentence c Hcov) as (? & _ & _ & ?). eauto. Qed.

(** Under [covers] the only error of the two probabilities is the
    [OverflowError] of [math.exp]. *)
Lemma p_1_x_post (sentence : list string) (c : classifier num) :
  covers c -> post_or_overflow (p_1_x sentence) c (fun _ c' => c' = c).
Proof.
  intros Hcov. destruct (score_post sentence c Hcov) as [s Hs].
  unfold post_or_overflow. rewrite (p_1_x_eq _ _ _ _ Hs).
  destruct (nexp s) as [e | err] eqn:He; [reflexivity | ].
  eapply nexp_raises, He.
Qed.

Lemma p_1_neg_x_post (sentence : list string) (c : classifier num) :
  covers c -> post_or_overflow (p_1_neg_x sentence) c (fun _ c' => c' = c).
Proof.
  intros Hcov. destruct (score_post sentence c Hcov) as [s Hs].
  unfold post_or_overflow. rewrite (p_1_neg_x_eq _ _ _ _ Hs).
  destruct (nexp s) as [e | err] eqn:He; [reflexivity | ].
  eapply nexp_raises, He.
Qed.

Lemma predict_lr_post (sentence : list string) (c : classifier num) :
  covers c ->
  post_or_overflow (LogisticRegressionClassifier_predict sentence) c
    (fun p c' => c' = c /\ (p = 0%Z \/ p = 1%Z)).
Proof.
  intros Hcov. unfold LogisticRegressionClassifier_predict.
  apply partial_bind. eapply partial_mono; [apply p_1_x_post, Hcov | ].
  intros p c' ->. destruct (ngtb p one_half); apply partial_ret; auto.
Qed.

(** One step of either loop: the probability is read from the weight
    list as it stands, then the one weight is replaced. *)
Lemma lr_step_pos_eq (sentence : list string) (f : nat) (c : classifier num) :
  covers c -> f < length (weight_vector c) ->
  post_or_overflow (lr_step_pos sentence f) c (fun _ c' =>
    exists p,
      p_1_x sentence c = Ok (p, c)
      /\ c' = set_weight_vector
                (<[f:=nadd (nth f (weight_vector c) (of_Z 0))
                         (nmul alpha_lr (nsub (of_Z 1) p))]>
                   (weight_vector c)) c).
Proof.
  intros Hcov Hf. pose proof (p_1_x_post sentence c Hcov) as Hp.
  unfold post_or_overflow in *. unfold lr_step_pos. unfold bind.
  rewrite (weight_at_eq f c Hf).
  destruct (p_1_x sentence c) as [[p c'] | e]; [subst c' | exact Hp].
  rewrite (set_weight_at_eq _ _ _ Hf). eauto.
Qed.

Lemma lr_step_neg_eq (sentence : list string) (f : nat) (c : classifier num) :
  covers c -> f < length (weight_vector c) ->
  post_or_overflow (lr_step_neg sentence f) c (fun _ c' =>
    exists p,
      p_1_neg_x sentence c = Ok (p, c)
      /\ c' = set_weight_vector
                (<[f:=nsub (nth f (weight_vector c) (of_Z 0))
                         (nmul alpha_lr (nsub (of_Z 1) p))]>
                   (weight_vector c)) c).
Proof.
  intros Hcov Hf. pose proof (p_1_neg_x_post sentence c Hcov) as Hp.
  unfold post_or_overflow in *. unfold lr_step_neg. unfold bind.
  rewrite (weight_at_eq f c Hf).
  destruct (p_1_neg_x sentence c) as [[p c'] | e]; [subst c' | exact Hp].
  rewrite (set_weight_at_eq _ _ _ Hf). eauto.
Qed.

(** The same steps, once the probability is known to have returned. *)
Lemma lr_step_pos_returns (sentence : list string) (f : nat)
    (c : classifier num) (p : num) :
  f < length (weight_vector c) -> p_1_x sentence c = Ok (p, c) ->
  lr_step_pos sentence f c
  = Ok (tt, set_weight_vector
              (<[f:=nadd (nth f (weight_vector c) (of_Z 0))
                       (nmul alpha_lr (nsub (of_Z 1) p))]>
                 (weight_vector c)) c).
Proof.
  intros Hf Hp. unfold lr_step_pos. unfold bind.
  rewrite (weight_at_eq f c Hf), Hp. apply set_weight_at_eq, Hf.
Qed.

Lemma lr_step_neg_returns (sentence : list string) (f : nat)
    (c : classifier num) (p : num) :
  f < length (weight_vector c) -> p_1_neg_x sentence c = Ok (p, c) ->
  lr_step_neg sentence f c
  = Ok (tt, set_weight_vector
              (<[f:=nsub (nth f (weight_vector c) (of_Z 0))
                       (nmul alpha_lr (nsub (of_Z 1) p))]>
                 (weight_vector c)) c).
Proof.
  intros Hf Hp. unfold lr_step_neg. unfold bind.
  rewrite (weight_at_eq f c Hf), Hp. apply set_weight_at_eq, Hf.
Qed.

Lemma update_loop_partial (step : nat -> M (classifier num) unit)
    (keys : list nat) (c : classifier num) :
  (forall k c0, same_shape c c0 -> k < length (weight_vector c0) ->
     post_or_overflow (step k) c0 (fun _ c1 => same_shape c0 c1)) ->
  (forall k, In k keys -> k < length (weight_vector c)) ->
  post_or_overflow (for_each keys step) c (fun _ c' => same_shape c c').
Proof.
  intros Hstep Hkeys.
  pose (I := fun (rest : list nat) (c0 : classifier num) =>
               (forall k, In k rest -> k < length (weight_vector c)) /\ same_shape c c0).
  eapply partial_mono.
  - apply (partial_for_each step I keys c).
    + split; [exact Hkeys | apply same_shape_refl].
    + intros k rest c0 [Hrest Hshape].
      eapply partial_mono.
      * apply Hstep; [exact Hshape | ].
        destruct Hshape as (_ & _ & ->). apply Hrest. left. reflexivity.
      * intros u c1 Hc1. split.
        -- intros k' Hk'. apply Hrest. right. exact Hk'.
        -- eapply same_shape_trans; eassumption.
  - intros u c' [_ Hshape]. exact Hshape.
Qed.

Lemma lr_update_post (train_ex : SentimentExample) (features : Counter)
    (c : classifier num) :
  covers c ->
  (forall k, In k (counter_keys features) -> k < length (weight_vector c)) ->
  post_or_overflow (lr_update train_ex features) c (fun _ c' => same_shape c c').
Proof.
  intros Hcov Hkeys. unfold lr_update.
  pose proof (predict_lr_post (words train_ex) c Hcov) as Hp.
  destruct (Z.eqb (label train_ex) 1).
  - apply partial_bind. eapply partial_mono; [exact Hp | ].
    intros p c' [-> _].
    destruct (Z.eqb p 1); [apply partial_ret, same_shape_refl | ].
    apply update_loop_partial; [ | exact Hkeys].
    intros f c0 Hshape Hf.
    eapply partial_mono;
      [apply lr_step_pos_eq; [exact (same_shape_covers _ _ Hshape Hcov) | exact Hf] | ].
    intros u c1 (q & _ & ->). apply set_weight_same_shape.
  - apply partial_bind. eapply partial_mono; [exact Hp | ].
    intros p c' [-> _].
    destruct (Z.eqb p 0); [apply partial_ret, same_shape_refl | ].
    apply update_loop_partial; [ | exact Hkeys].
    intros f c0 Hshape Hf.
    eapply partial_mono;
      [apply lr_step_neg_eq; [exact (same_shape_covers _ _ Hshape Hcov) | exact Hf] | ].
    intros u c1 (q & _ & ->). apply set_weight_same_shape.
Qed.

(** Every example of the logistic regression that does not end in
    [OverflowError] leaves the weight list one longer than what covers
    the indexer. *)
Lemma lr_example_post (train_ex : SentimentExample) (c : classifier num) :
  post_or_overflow (lr_example train_ex) c (fun _ c' =>
    example_post c c'
    /\ length (weight_vector c')
       = Nat.max (length (weight_vector c)) (Indexer.size (indexer c')) + 1).
Proof.
  unfold lr_example.
  apply extract_and_grow_partial. intros features c1 Hgrown.
  eapply partial_mono.
  - apply lr_update_post; [apply Hgrown | apply Hgrown].
  - intros u c2 Hshape. eapply grown_same_shape; eassumption.
Qed.

End UpdateFacts.

(** * Shuffling *)

Section ShuffleFacts.
Context `{RandomGen} {A : Type}.

Lemma insert_cons_perm (a b : A) (t : list A) (j : nat) :
  t !! j = Some b -> a :: t ≡ₚ b :: <[j:=a]> t.
Proof.
  revert j. induction t as [ | c t IH]; intros j Hj; [discriminate | ].
  destruct j as [ | j]; simpl in *.
  - injection Hj as ->. apply perm_swap.
  - rewrite (perm_swap c a t). rewrite (IH j Hj). apply perm_swap.
Qed.

Lemma swap_perm (x : list A) (i j : nat) (xi xj : A) :
  x !! i = Some xi -> x !! j = Some xj -> x ≡ₚ <[j:=xi]> (<[i:=xj]> x).
Proof.
  revert i j. induction x as [ | a x IH]; intros i j Hi Hj; [discriminate | ].
  destruct i as [ | i], j as [ | j]; simpl in *.
  - injection Hi as ->. injection Hj as ->. reflexivity.
  - injection Hi as ->. apply insert_cons_perm, Hj.
  - injection Hj as ->. apply insert_cons_perm, Hi.
  - apply perm_skip, IH; assumption.
Qed.

Lemma swap_eq (x : list A) (i j : nat) (xi xj : A) :
  x !! i = Some xi -> x !! j = Some xj ->
  swap i j x = Ok (tt, <[j:=xi]> (<[i:=xj]> x)).
Proof.
  intros Hi Hj. unfold swap, getitem, setitem. unfold_monad.
  rewrite Hj, Hi. cbv iota.
  destruct (decide (i < length x)) as [ | Hn];
    [ | exfalso; apply Hn; eapply lookup_lt_Some; eassumption].
  cbv iota. rewrite length_insert.
  destruct (decide (j < length x)) as [ | Hn];
    [reflexivity | exfalso; apply Hn; eapply lookup_lt_Some; eassumption].
Qed.

(** A shuffle returns, and what it leaves is a rearrangement of the
    list it was given. *)
Lemma shuffle_post (l : list A) (g : rng) :
  post shuffle (l, g) (fun _ p => l ≡ₚ fst p).
Proof.
  unfold shuffle. apply post_bind. unfold post at 1, gets. cbv beta iota.
  pose (I := fun (rest : list nat) (s : list A * rng) =>
               (forall i, In i rest -> i < length l)
               /\ length (fst s) = length l /\ l ≡ₚ fst s).
  eapply post_mono.
  - apply (post_for_each _ I).
    + split; [ | split; reflexivity].
      intros i Hi. apply in_rev, in_seq in Hi. simpl in Hi. lia.
    + intros i rest [x g0] (Hrest & Hlen & Hperm). simpl in Hlen, Hperm.
      assert (Hi : i < length x)
        by (rewrite Hlen; apply Hrest; left; reflexivity).
      pose proof (randbelow_lt (i + 1) g0 ltac:(lia)) as Hj.
      unfold post, bind, zoom. simpl.
      destruct (randbelow (i + 1) g0) as [j g1]. simpl in *.
      destruct (lookup_lt_is_Some_2 x i Hi) as [xi Hxi].
      destruct (lookup_lt_is_Some_2 x j ltac:(lia)) as [xj Hxj].
      rewrite (swap_eq x i j xi xj Hxi Hxj). unfold I. simpl.
      split; [intros k Hk; apply Hrest; right; exact Hk | ].
      split; [rewrite !length_insert; exact Hlen | ].
      rewrite Hperm. apply swap_perm; assumption.
  - intros u p (_ & _ & Hperm). exact Hperm.
Qed.

(** [n] shuffles in a row, one per epoch. *)
Definition shuffles (n : Z) : M (list A * rng) unit :=
  for_each (range n) (fun _ => shuffle).

Lemma shuffles_post (n : Z) (l : list A) (g : rng) :
  post (shuffles n) (l, g) (fun _ p => l ≡ₚ fst p).
Proof.
  unfold shuffles.
  pose (I := fun (rest : list nat) (s : list A * rng) => l ≡ₚ fst s).
  apply (post_for_each _ I); [unfold I; reflexivity | ].
  intros e rest [x g0] Hperm. unfold I in *. simpl in Hperm.
  eapply post_mono; [apply shuffle_post | ].
  intros u p Hp. simpl in Hp. rewrite Hperm. exact Hp.
Qed.

End ShuffleFacts.

(** * The training loops *)

Section TrainingFacts.
Context `{Lowercase} {num : Type} `{Numeric num} `{Exponential num} `{RandomGen}.

(** The loop over the examples works on the classifier alone. *)
Lemma example_loop_post (body : SentimentExample -> M (classifier num) unit)
    (Inv : classifier num -> Prop) (exs : list SentimentExample) (s : store num) :
  (forall ex c, Inv c -> post (body ex) c (fun _ c' => Inv c')) ->
  Inv (clf s) ->
  post (for_each exs (fun train_ex => zoom clf set_clf (body train_ex))) s
    (fun _ s' => train_exs s' = train_exs s /\ global_rng s' = global_rng s
                 /\ Inv (clf s')).
Proof.
  intros Hbody Hinv.
  pose (I := fun (rest : list SentimentExample) (s0 : store num) =>
               train_exs s0 = train_exs s /\ global_rng s0 = global_rng s
               /\ Inv (clf s0)).
  apply (post_for_each _ I); [unfold I; auto | ].
  intros ex rest s0 (Hexs & Hrng & Hinv0).
  apply post_zoom. eapply post_mono; [apply Hbody, Hinv0 | ].
  intros u c' Hc'. unfold I. simpl. auto.
Qed.

(** One epoch: the shuffle of the caller's list with the global
    generator, then the examples in the new order. *)
Lemma epoch_post (body : SentimentExample -> M (classifier num) unit)
    (Inv : classifier num -> Prop) (s : store num) :
  (forall ex c, Inv c -> post (body ex) c (fun _ c' => Inv c')) ->
  Inv (clf s) ->
  post (epoch body) s (fun _ s' =>
    shuffle (train_exs s, global_rng s) = Ok (tt, (train_exs s', global_rng s'))
    /\ Inv (clf s')).
Proof.
  intros Hbody Hinv. unfold epoch.
  pose proof (shuffle_post (train_exs s) (global_rng s)) as Hsh.
  apply post_eq in Hsh. destruct Hsh as ([] & [l g] & Hsh & _).
  apply post_bind, post_zoom. unfold post at 1. rewrite Hsh.
  apply post_bind, post_gets.
  eapply post_mono; [apply (example_loop_post body Inv); [exact Hbody | exact Hinv] | ].
  intros u s' (Hexs & Hrng & Hinv'). rewrite Hexs, Hrng. simpl. auto.
Qed.

Lemma epochs_post (body : SentimentExample -> M (classifier num) unit)
    (Inv : classifier num -> Prop) (n : Z) (s : store num) :
  (forall ex c, Inv c -> post (body ex) c (fun _ c' => Inv c')) ->
  Inv (clf s) ->
  post (for_each (range n) (fun _ => epoch body)) s (fun _ s' =>
    shuffles n (train_exs s, global_rng s)
      = Ok (tt, (train_exs s', global_rng s'))
    /\ Inv (clf s')).
Proof.
  intros Hbody. unfold shuffles. generalize (range n) as es.
  intros es. revert s. induction es as [ | e es IH]; intros s Hinv.
  - simpl. apply post_ret. destruct s; auto.
  - simpl. apply post_bind.
    eapply post_mono; [apply (epoch_post body Inv); assumption | ].
    intros u s1 [Hsh Hinv1].
    eapply post_mono; [apply IH, Hinv1 | ].
    intros u' s2 [Hrest Hinv2]. split; [ | exact Hinv2].
    unfold bind. rewrite Hsh. exact Hrest.
Qed.

(** The common shape of the two trainers. *)
Definition trainer (a : Z) (epochs : Z)
    (body : SentimentExample -> M (classifier num) unit)
  : M (store num) (classifier num) :=
  modify (set_global_rng (seed a)) ;;
  zoom clf set_clf init_weights ;;
  for_each (range epochs) (fun _ => epoch body) ;;
  gets clf.

(** What a training run returns, from any store. *)
Definition trained (a : Z) (epochs : Z) (s : store num)
    (c : classifier num) (s' : store num) : Prop :=
  c = clf s' /\ covers c /\ featurizer c = featurizer (clf s)
  /\ extends (indexer (clf s)) (indexer c)
  /\ shuffles epochs (train_exs s, seed a)
     = Ok (tt, (train_exs s', global_rng s')).

Lemma trainer_post (a : Z) (epochs : Z)
    (body : SentimentExample -> M (classifier num) unit) (s : store num) :
  (forall ex c, covers c -> post (body ex) c (fun _ c' => example_post c c')) ->
  post (trainer a epochs body) s (trained a epochs s).
Proof.
  intros Hbody. unfold trainer.
  apply post_bind, post_modify, post_bind, post_zoom.
  unfold post at 1, init_weights, modify.
  set (c0 := set_weight_vector _ (clf (set_global_rng (seed a) s))).
  set (s0 := set_clf c0 (set_global_rng (seed a) s)).
  pose (Inv := fun c : classifier num =>
                 covers c /\ featurizer c = featurizer (clf s)
                 /\ extends (indexer (clf s)) (indexer c)).
  assert (Hinv0 : Inv (clf s0)).
  { unfold Inv, covers. simpl. split; [ | split; [reflexivity | apply extends_refl]].
    rewrite length_map. unfold range. rewrite length_seq. lia. }
  apply post_bind.
  eapply post_mono; [apply (epochs_post body Inv epochs s0); [ | exact Hinv0] | ].
  - intros ex c (Hcov & Hfe & Hext).
    eapply post_mono; [apply Hbody, Hcov | ].
    intros u c' (Hcov' & Hfe' & Hext' & _). unfold Inv.
    split; [exact Hcov' | split; [congruence | eapply extends_trans; eassumption]].
  - intros u s' [Hsh (Hcov & Hfe & Hext)]. apply post_gets. unfold trained.
    auto 6.
Qed.

Lemma train_perceptron_post (s : store num) :
  post train_perceptron s (trained 10 50 s).
Proof.
  change train_perceptron with (trainer 10 50 perceptron_example).
  apply trainer_post.
  intros ex c Hcov.
  eapply post_mono; [apply perceptron_example_post, Hcov | ].
  intros u c' [Hpost _]. exact Hpost.
Qed.

(** The same loops for a body that may end in [OverflowError]. *)
Lemma example_loop_partial (body : SentimentExample -> M (classifier num) unit)
    (Inv : classifier num -> Prop) (exs : list SentimentExample) (s : store num) :
  (forall ex c, Inv c -> post_or_overflow (body ex) c (fun _ c' => Inv c')) ->
  Inv (clf s) ->
  post_or_overflow
    (for_each exs (fun train_ex => zoom clf set_clf (body train_ex))) s
    (fun _ s' => train_exs s' = train_exs s /\ global_rng s' = global_rng s
                 /\ Inv (clf s')).
Proof.
  intros Hbody Hinv.
  pose (I := fun (rest : list SentimentExample) (s0 : store num) =>
               train_exs s0 = train_exs s /\ global_rng s0 = global_rng s
               /\ Inv (clf s0)).
  apply (partial_for_each _ I); [unfold I; auto | ].
  intros ex rest s0 (Hexs & Hrng & Hinv0).
  apply partial_zoom. eapply partial_mono; [apply Hbody, Hinv0 | ].
  intros u c' Hc'. unfold I. simpl. auto.
Qed.

Lemma epoch_partial (body : SentimentExample -> M (classifier num) unit)
    (Inv : classifier num -> Prop) (s : store num) :
  (forall ex c, Inv c -> post_or_overflow (body ex) c (fun _ c' => Inv c')) ->
  Inv (clf s) ->
  post_or_overflow (epoch body) s (fun _ s' =>
    shuffle (train_exs s, global_rng s) = Ok (tt, (train_exs s', global_rng s'))
    /\ Inv (clf s')).
Proof.
  intros Hbody Hinv. unfold epoch.
  pose proof (shuffle_post (train_exs s) (global_rng s)) as Hsh.
  apply post_eq in Hsh. destruct Hsh as ([] & [l g] & Hsh & _).
  apply partial_bind, partial_zoom. unfold post_or_overflow at 1. rewrite Hsh.
  apply partial_bind, partial_of_post, post_gets.
  eapply partial_mono;
    [apply (example_loop_partial body Inv); [exact Hbody | exact Hinv] | ].
  intros u s' (Hexs & Hrng & Hinv'). rewrite Hexs, Hrng. simpl. auto.
Qed.

Lemma epochs_partial (body : SentimentExample -> M (classifier num) unit)
    (Inv : classifier num -> Prop) (n : Z) (s : store num) :
  (forall ex c, Inv c -> post_or_overflow (body ex) c (fun _ c' => Inv c')) ->
  Inv (clf s) ->
  post_or_overflow (for_each (range n) (fun _ => epoch body)) s (fun _ s' =>
    shuffles n (train_exs s, global_rng s)
      = Ok (tt, (train_exs s', global_rng s'))
    /\ Inv (clf s')).
Proof.
  intros Hbody. unfold shuffles. generalize (range n) as es.
  intros es. revert s. induction es as [ | e es IH]; intros s Hinv.
  - simpl. apply partial_ret. destruct s; auto.
  - simpl. apply partial_bind.
    eapply partial_mono; [apply (epoch_partial body Inv); assumption | ].
    intros u s1 [Hsh Hinv1].
    eapply partial_mono; [apply IH, Hinv1 | ].
    intros u' s2 [Hrest Hinv2]. split; [ | exact Hinv2].
    unfold bind. rewrite Hsh. exact Hrest.
Qed.

Lemma trainer_partial (a : Z) (epochs : Z)
    (body : SentimentExample -> M (classifier num) unit) (s : store num) :
  (forall ex c, covers c ->
     post_or_overflow (body ex) c (fun _ c' => example_post c c')) ->
  post_or_overflow (trainer a epochs body) s (trained a epochs s).
Proof.
  intros Hbody. unfold trainer.
  apply partial_bind, partial_of_post, post_modify, partial_bind, partial_zoom.
  unfold post_or_overflow at 1, init_weights, modify.
  set (c0 := set_weight_vector _ (clf (set_global_rng (seed a) s))).
  set (s0 := set_clf c0 (set_global_rng (seed a) s)).
  pose (Inv := fun c : classifier num =>
                 covers c /\ featurizer c = featurizer (clf s)
                 /\ extends (indexer (clf s)) (indexer c)).
  assert (Hinv0 : Inv (clf s0)).
  { unfold Inv, covers. simpl. split; [ | split; [reflexivity | apply extends_refl]].
    rewrite length_map. unfold range. rewrite length_seq. lia. }
  apply partial_bind.
  eapply partial_mono; [apply (epochs_partial body Inv epochs s0); [ | exact Hinv0] | ].
  - intros ex c (Hcov & Hfe & Hext).
    eapply partial_mono; [apply Hbody, Hcov | ].
    intros u c' (Hcov' & Hfe' & Hext' & _). unfold Inv.
    split; [exact Hcov' | split; [congruence | eapply extends_trans; eassumption]].
  - intros u s' [Hsh (Hcov & Hfe & Hext)]. apply partial_of_post, post_gets.
    unfold trained. auto 6.
Qed.

(** [train_logistic_regression] returns a classifier as described by
    [trained], or ends in the [OverflowError] of [math.exp]. *)
Lemma train_logistic_regression_post (s : store num) :
  post_or_overflow train_logistic_regression s (trained 2324 15 s).
Proof.
  change train_logistic_regression with (trainer 2324 15 lr_example).
  apply trainer_partial.
  intros ex c Hcov.
  eapply partial_mono; [apply lr_example_post | ].
  intros u c' [Hpost _]. exact Hpost.
Qed.

End TrainingFacts.

(** * Length of the weight list after an update *)

(** One training example, ["good"] with label 1, and the classifier a
    trainer starts from on a fresh unigram extractor. *)
Definition good_example : SentimentExample := {| words := ["good"]; label := 1 |}.

Definition fresh_unigram {num : Type} : classifier num :=
  {| featurizer := UnigramFeatureExtractor; indexer := Indexer.empty;
     weight_vector := [] |}.

(** The first visit of [train_logistic_regression] to ["good"]: what
    it leaves if it returns, and that it returns when [math.exp] does
    at the score of the two zero weights. *)
Lemma lr_first_update `{Lowercase} {num : Type} `{Numeric num} `{Exponential num} :
  post_or_overflow (lr_example good_example) fresh_unigram (fun _ c =>
    Indexer.size (indexer c) = 1 /\ length (weight_vector c) = 2)
  /\ forall e : num,
       nexp (nadd (of_Z 0) (nmul (of_Z 1) (of_Z 0))) = Ok e ->
       post (lr_example good_example) fresh_unigram (fun _ c =>
         Indexer.size (indexer c) = 1 /\ length (weight_vector c) = 2).
Proof.
  assert (Hrun : forall Q : unit -> classifier num -> Prop,
            (forall w : list num,
               length w = 2 ->
               Q tt {| featurizer := UnigramFeatureExtractor;
                       indexer := Indexer.Make [lower "good"];
                       weight_vector := w |}) ->
            match nexp (nadd (of_Z 0) (nmul (of_Z 1) (of_Z 0))) with
            | Ok _ =>
                match lr_example good_example fresh_unigram with
                | Ok (u, c) => Q u c
                | Raise _ => False
                end
            | Raise _ =>
                lr_example good_example fresh_unigram = Raise OverflowError
            end).
  { intros Q HQ.
    cbv -[ngtb nadd nsub nmul ndiv of_Z nexp String.eqb lower].
    rewrite !String.eqb_refl.
    cbv -[ngtb nadd nsub nmul ndiv of_Z nexp String.eqb lower].
    destruct (nexp (nadd (of_Z 0) (nmul (of_Z 1) (of_Z 0)))) as [e | err] eqn:He.
    - destruct (ngtb _ _); [apply HQ; reflexivity | ].
      cbv -[ngtb nadd nsub nmul ndiv of_Z nexp String.eqb lower].
      rewrite !String.eqb_refl.
      cbv -[ngtb nadd nsub nmul ndiv of_Z nexp String.eqb lower].
      rewrite He. apply HQ. reflexivity.
    - apply nexp_raises in He. subst err. reflexivity. }
  split.
  - assert (HQ : forall w : list num,
              length w = 2 ->
              Indexer.size (indexer {| featurizer := UnigramFeatureExtractor;
                                       indexer := Indexer.Make [lower "good"];
                                       weight_vector := w |}) = 1
              /\ length (weight_vector
                           {| featurizer := UnigramFeatureExtractor;
                              indexer := Indexer.Make [lower "good"];
                              weight_vector := w |}) = 2)
      by (intros w Hw; split; [reflexivity | exact Hw]).
    pose proof (Hrun (fun _ c =>
      Indexer.size (indexer c) = 1 /\ length (weight_vector c) = 2) HQ) as Hq.
    unfold post_or_overflow.
    destruct (nexp (nadd (of_Z 0) (nmul (of_Z 1) (of_Z 0)))) as [e | err].
    + destruct (lr_example good_example fresh_unigram) as [[u c] | err];
        [exact Hq | destruct Hq].
    + rewrite Hq. reflexivity.
  - intros e He.
    pose proof (Hrun (fun _ c =>
      Indexer.size (indexer c) = 1 /\ length (weight_vector c) = 2)) as Hq.
    rewrite He in Hq. apply Hq. intros w Hw. split; [reflexivity | exact Hw].
Qed.

(** C1.  The first update of either trainer on the example ["good"],
    label 1, from a fresh unigram extractor ends with one string in the
    indexer and two weights: the [append(0)] after the growth loop makes
    the weight list one longer than the indexer.  The perceptron update
    returns in any number system; the logistic regression update
    returns over the reals, where [math.exp] gives 1 at the score 0 of
    that update, and in any number system it gives these lengths unless
    it ends in the [OverflowError] of [math.exp].  For the logistic
    regression trainer the list is longer than the indexer after every
    example whose visit does not end in that error, the only one it can
    end in. *)
Theorem weight_length_after_update `{Lowercase} {num : Type} `{Numeric num} `{Exponential num} :
  post (perceptron_example good_example) (fresh_unigram (num := num)) (fun _ c =>
    Indexer.size (indexer c) = 1 /\ length (weight_vector c) = 2)
  /\ post (lr_example good_example) (fresh_unigram (num := R)) (fun _ c =>
    Indexer.size (indexer c) = 1 /\ length (weight_vector c) = 2)
  /\ post_or_overflow (lr_example good_example) (fresh_unigram (num := num))
       (fun _ c => Indexer.size (indexer c) = 1 /\ length (weight_vector c) = 2)
  /\ forall (train_ex : SentimentExample) (c : classifier num),
       post_or_overflow (lr_example train_ex) c (fun _ c' =>
         Indexer.size (indexer c') < length (weight_vector c')).
Proof.
  split; [ | split; [ | split]].
  - cbv -[ngtb nadd nsub nmul ndiv of_Z nexp].
    rewrite ngtb_irrefl. split; reflexivity.
  - apply (proj2 (lr_first_update (num := R)) (exp (0 + 1 * 0))).
    change (exp_R (0 + 1 * 0) = Ok (exp (0 + 1 * 0))).
    apply exp_R_returns. lra.
  - apply lr_first_update.
  - intros train_ex c. eapply partial_mono; [apply lr_example_post | ].
    intros u c' [_ Hlen]. simpl in Hlen. lia.
Qed.

(** * Determinism, the caller's list, and model selection *)

(** C9.  Training does not depend on the state the global generator is
    in when the trainer is called (nor on what the weight cell holds),
    since each trainer starts by seeding the generator with its
    constant: two runs from stores with equal training lists and equal
    extractors have the same outcome.  [train_perceptron] returns in
    both, with the same classifier, the same order of the caller's list
    and the same generator state; [train_logistic_regression] returns
    the same in both or raises the same error in both. *)
Theorem training_deterministic `{Lowercase} {num : Type} `{Numeric num} `{Exponential num}
    `{RandomGen} (s1 s2 : store num) :
  train_exs s1 = train_exs s2 ->
  featurizer (clf s1) = featurizer (clf s2) ->
  indexer (clf s1) = indexer (clf s2) ->
  (exists c s', train_perceptron s1 = Ok (c, s')
                /\ train_perceptron s2 = Ok (c, s'))
  /\ train_logistic_regression s1 = train_logistic_regression s2.
Proof.
  intros Hexs Hfe Hix.
  assert (Hp : train_perceptron s1 = train_perceptron s2).
  { unfold train_perceptron, init_weights. unfold_monad.
    destruct s1 as [exs1 g1 [fe1 ix1 w1]], s2 as [exs2 g2 [fe2 ix2 w2]].
    simpl in *. subst. reflexivity. }
  assert (Hl : train_logistic_regression s1 = train_logistic_regression s2).
  { unfold train_logistic_regression, init_weights. unfold_monad.
    destruct s1 as [exs1 g1 [fe1 ix1 w1]], s2 as [exs2 g2 [fe2 ix2 w2]].
    simpl in *. subst. reflexivity. }
  split; [ | exact Hl].
  pose proof (train_perceptron_post s1) as Hpost. apply post_eq in Hpost.
  destruct Hpost as (c & s' & Hrun & _). exists c, s'.
  split; [exact Hrun | rewrite <- Hp; exact Hrun].
Qed.

(** Two stores that differ in the state of the generator and in the
    weight cell only. *)
Definition two_examples : list SentimentExample :=
  [{| words := ["good"; "movie"]; label := 1 |};
   {| words := ["bad"; "movie"]; label := 0 |}].

Definition store_seeded (a : Z) (w : list R) : store R :=
  {| train_exs := two_examples; global_rng := MT19937.seed a;
     clf := {| featurizer := BigramFeatureExtractor; indexer := Indexer.empty;
               weight_vector := w |} |}.

Lemma training_deterministic_witness :
  (exists c s', train_perceptron (store_seeded 1 []) = Ok (c, s')
                /\ train_perceptron (store_seeded 2 [1%R]) = Ok (c, s'))
  /\ train_logistic_regression (store_seeded 1 [])
     = train_logistic_regression (store_seeded 2 [1%R]).
Proof.
  apply (training_deterministic (store_seeded 1 []) (store_seeded 2 [1%R]));
    reflexivity.
Defined.

(** C4, as the code has it.  When a trainer returns, the caller's list
    holds exactly the examples it held before, each with its words and
    label: the list is a rearrangement of the original, the result of
    the shuffles of the epochs applied in place to the list itself.
    [train_perceptron] returns from any store;
    [train_logistic_regression] returns, or ends in the
    [OverflowError] of [math.exp]. *)
Theorem training_permutes_examples `{Lowercase} {num : Type} `{Numeric num} `{Exponential num}
    `{RandomGen} (s : store num) :
  post train_perceptron s (fun _ s' =>
    train_exs s ≡ₚ train_exs s'
    /\ shuffles 50 (train_exs s, seed 10) = Ok (tt, (train_exs s', global_rng s')))
  /\ post_or_overflow train_logistic_regression s (fun _ s' =>
    train_exs s ≡ₚ train_exs s'
    /\ shuffles 15 (train_exs s, seed 2324) = Ok (tt, (train_exs s', global_rng s'))).
Proof.
  split.
  - eapply post_mono; [apply train_perceptron_post | ].
    intros c s' (_ & _ & _ & _ & Hsh). split; [ | exact Hsh].
    pose proof (shuffles_post 50 (train_exs s) (seed 10)) as Hperm.
    unfold post in Hperm. rewrite Hsh in Hperm. exact Hperm.
  - eapply partial_mono; [apply train_logistic_regression_post | ].
    intros c s' (_ & _ & _ & _ & Hsh). split; [ | exact Hsh].
    pose proof (shuffles_post 15 (train_exs s) (seed 2324)) as Hperm.
    unfold post in Hperm. rewrite Hsh in Hperm. exact Hperm.
Qed.

(** The order of a list of examples after a run, if the run returns. *)
Definition order_after {S A : Type} (proj : S -> list SentimentExample)
    (r : result (A * S)) : option (list SentimentExample) :=
  match r with
  | Ok (_, s') => Some (proj s')
  | Raise _ => None
  end.

Lemma order_after_training `{Lowercase} {num : Type} `{Numeric num} `{Exponential num}
    `{RandomGen} (s : store num) :
  order_after train_exs (train_perceptron s)
    = order_after fst (shuffles 50 (train_exs s, seed 10))
  /\ (train_logistic_regression s = Raise OverflowError
      \/ order_after train_exs (train_logistic_regression s)
         = order_after fst (shuffles 15 (train_exs s, seed 2324))).
Proof.
  pose proof (train_perceptron_post s) as Hp.
  pose proof (train_logistic_regression_post s) as Hl.
  unfold post, post_or_overflow, trained in Hp, Hl. unfold order_after.
  destruct (train_perceptron s) as [[c1 s1] | e1]; [ | contradiction].
  destruct Hp as (_ & _ & _ & _ & ->). split; [reflexivity | ].
  destruct (train_logistic_regression s) as [[c2 s2] | e2].
  - destruct Hl as (_ & _ & _ & _ & ->). right. reflexivity.
  - left. rewrite Hl. reflexivity.
Qed.

(** Four one-word examples, in the caller's order. *)
Definition word_example (w : string) (l : Z) : SentimentExample :=
  {| words := [w]; label := l |}.

Definition four_examples : list SentimentExample :=
  [word_example "great" 1; word_example "awful" 0;
   word_example "fine" 1; word_example "dull" 0].

Definition store_of_four {num : Type} : store num :=
  {| train_exs := four_examples; global_rng := MT19937.seed 0;
     clf := fresh_unigram |}.

(** The perceptron on the four examples, in binary64: the first epoch
    visits them in the order dull, fine, awful, great and learns the two
    positive words; nothing changes afterwards. *)
Example perceptron_on_four_examples :
  match @train_perceptron _ float _ _ store_of_four with
  | Ok (c, _) => Some (Indexer.objs (indexer c), weight_vector c)
  | Raise _ => None
  end
  = Some (["fine"; "great"], [(5 / 100)%float; (5 / 100)%float; 0%float]).
Proof. vm_compute. reflexivity. Qed.

(** C4 as stated fails: with the generator of the [random] module, the
    list of four examples comes back from [train_perceptron] in another
    order, and [train_logistic_regression] cannot return it in the
    caller's order either. *)
Lemma caller_list_reordered :
  order_after train_exs (@train_perceptron _ float _ _ store_of_four)
    = Some [word_example "dull" 0; word_example "awful" 0;
            word_example "great" 1; word_example "fine" 1]
  /\ order_after train_exs (@train_perceptron _ float _ _ store_of_four)
     <> Some (train_exs (@store_of_four float))
  /\ order_after train_exs (@train_logistic_regression _ R _ _ _ store_of_four)
     <> Some (train_exs (@store_of_four R)).
Proof.
  assert (Hp : order_after train_exs (@train_perceptron _ float _ _ store_of_four)
               = Some [word_example "dull" 0; word_example "awful" 0;
                       word_example "great" 1; word_example "fine" 1])
    by (vm_compute; reflexivity).
  split; [exact Hp | ]. rewrite Hp. split; [discriminate | ].
  destruct (@order_after_training _ R _ _ _ store_of_four) as [_ [Hl | Hl]].
  - rewrite Hl. discriminate.
  - rewrite Hl. vm_compute. discriminate.
Qed.

(** ** Model selection *)

Definition known_model (m : string) : Prop :=
  m = "TRIVIAL" \/ m = "PERCEPTRON" \/ m = "LR".

Definition known_feats (f : string) : Prop :=
  f = "UNIGRAM" \/ f = "BIGRAM" \/ f = "BETTER".

(** The extractor class a recognised [feats] value names. *)
Definition extractor_named (f : string) : option FeatureExtractor :=
  if String.eqb f "UNIGRAM" then Some UnigramFeatureExtractor
  else if String.eqb f "BIGRAM" then Some BigramFeatureExtractor
  else if String.eqb f "BETTER" then Some BetterFeatureExtractor
  else None.

Lemma known_feats_named (f : string) :
  known_feats f <-> exists fe, extractor_named f = Some fe.
Proof.
  unfold known_feats, extractor_named. split.
  - intros [-> | [-> | ->]]; simpl; eauto.
  - intros [fe Hfe].
    destruct (String.eqb_spec f "UNIGRAM"); [auto | ].
    destruct (String.eqb_spec f "BIGRAM"); [auto | ].
    destruct (String.eqb_spec f "BETTER"); [auto | discriminate].
Qed.

Section ModelSelection.
Context `{Lowercase} {num : Type} `{Numeric num} `{Exponential num} `{RandomGen}.

Lemma choose_extractor_named (args : Args) :
  model args <> "TRIVIAL" ->
  choose_extractor args
  = match extractor_named (feats args) with
    | Some fe => Ok (Some fe)
    | None => Raise (ConfigError
        "Pass in UNIGRAM, BIGRAM, or BETTER to run the appropriate system")
    end.
Proof.
  intros Hm. unfold choose_extractor, extractor_named.
  destruct (String.eqb_spec (model args) "TRIVIAL"); [contradiction | ].
  destruct (String.eqb (feats args) "UNIGRAM"); [reflexivity | ].
  destruct (String.eqb (feats args) "BIGRAM"); [reflexivity | ].
  destruct (String.eqb (feats args) "BETTER"); reflexivity.
Qed.

(** A trainer run on a fresh extractor of the given class: the
    perceptron returns a classifier with that extractor, the logistic
    regression too unless it ends in [OverflowError]. *)
Lemma with_extractor_post (fe : FeatureExtractor) (s : store num) :
  (exists c s', with_extractor (Some fe) train_perceptron s = Ok (c, s')
                /\ featurizer c = fe)
  /\ ((exists c s', with_extractor (Some fe) train_logistic_regression s = Ok (c, s')
                    /\ featurizer c = fe)
      \/ with_extractor (Some fe) train_logistic_regression s
         = Raise OverflowError).
Proof.
  unfold with_extractor. unfold bind, modify.
  set (s0 := set_clf _ s).
  pose proof (train_perceptron_post s0) as Hp.
  pose proof (train_logistic_regression_post s0) as Hl.
  unfold post, post_or_overflow, trained in Hp, Hl.
  destruct (train_perceptron s0) as [[c1 s1] | e1]; [ | contradiction].
  split.
  - eexists _, _. split; [reflexivity | ].
    destruct Hp as (_ & _ & Hfe & _). exact Hfe.
  - destruct (train_logistic_regression s0) as [[c2 s2] | e2].
    + left. eexists _, _. split; [reflexivity | ].
      destruct Hl as (_ & _ & Hfe & _). exact Hfe.
    + right. rewrite Hl. reflexivity.
Qed.

End ModelSelection.

(** C3, as the code has it.  [train_model] raises a configuration error
    exactly when [args.model] is not recognised, or [args.model] is not
    TRIVIAL and [args.feats] is not recognised.  The one other error it
    can raise is the [OverflowError] of [math.exp], and only while
    training a logistic regression on a recognised [args.feats].  With
    model TRIVIAL it returns the trivial classifier whatever
    [args.feats] is, without touching the store; with model PERCEPTRON
    and a recognised [args.feats] it returns a perceptron trained on
    the extractor [args.feats] names; with model LR and a recognised
    [args.feats] it returns a logistic regression classifier on that
    extractor unless training ends in [OverflowError]. *)
Theorem train_model_outcome `{Lowercase} {num : Type} `{Numeric num} `{Exponential num}
    `{RandomGen} (args : Args) (s : store num) :
  ((exists msg, train_model args s = Raise (ConfigError msg))
   <-> ~ known_model (model args)
       \/ (model args <> "TRIVIAL" /\ ~ known_feats (feats args)))
  /\ (forall e, train_model args s = Raise e ->
       (exists msg, e = ConfigError msg)
       \/ (e = OverflowError /\ model args = "LR" /\ known_feats (feats args)))
  /\ (model args = "TRIVIAL" ->
      train_model args s = Ok (TrivialSentimentClassifier, s))
  /\ (model args = "PERCEPTRON" -> known_feats (feats args) ->
      exists c s', train_model args s = Ok (PerceptronClassifier c, s')
                   /\ extractor_named (feats args) = Some (featurizer c))
  /\ (model args = "LR" -> known_feats (feats args) ->
      (exists c s', train_model args s = Ok (LogisticRegressionClassifier c, s')
                    /\ extractor_named (feats args) = Some (featurizer c))
      \/ train_model args s = Raise OverflowError).
Proof.
  assert (Htrivial : model args = "TRIVIAL" ->
            train_model args s = Ok (TrivialSentimentClassifier, s)).
  { intros Hm. unfold train_model, choose_extractor. rewrite Hm. reflexivity. }
  assert (Hfeats : model args <> "TRIVIAL" -> ~ known_feats (feats args) ->
            train_model args s = Raise (ConfigError
              "Pass in UNIGRAM, BIGRAM, or BETTER to run the appropriate system")).
  { intros Hm Hf. unfold train_model. unfold bind, lift.
    rewrite (choose_extractor_named args Hm).
    destruct (extractor_named (feats args)) as [fe | ] eqn:Hfe; [ | reflexivity].
    exfalso. apply Hf, known_feats_named. eauto. }
  assert (Hmodel : ~ known_model (model args) -> known_feats (feats args) ->
            train_model args s = Raise (ConfigError
              "Pass in TRIVIAL, PERCEPTRON, or LR to run the appropriate system")).
  { intros Hm Hf. unfold known_model in Hm.
    assert (Hnt : model args <> "TRIVIAL") by tauto.
    unfold train_model. unfold bind, lift.
    rewrite (choose_extractor_named args Hnt).
    apply known_feats_named in Hf. destruct Hf as [fe ->].
    destruct (String.eqb_spec (model args) "TRIVIAL"); [tauto | ].
    destruct (String.eqb_spec (model args) "PERCEPTRON"); [tauto | ].
    destruct (String.eqb_spec (model args) "LR"); [tauto | reflexivity]. }
  assert (Hperceptron : model args = "PERCEPTRON" -> known_feats (feats args) ->
            exists c s', train_model args s = Ok (PerceptronClassifier c, s')
                         /\ extractor_named (feats args) = Some (featurizer c)).
  { intros Hm Hf.
    assert (Hnt : model args <> "TRIVIAL") by (rewrite Hm; discriminate).
    apply known_feats_named in Hf. destruct Hf as [fe Hfe].
    destruct (with_extractor_post fe s) as [(c & s' & Hrun & Hc) _].
    exists c, s'. unfold train_model. unfold bind, lift.
    rewrite (choose_extractor_named args Hnt), Hfe.
    destruct (String.eqb_spec (model args) "TRIVIAL"); [contradiction | ].
    destruct (String.eqb_spec (model args) "PERCEPTRON"); [ | contradiction].
    rewrite Hrun, Hc. split; reflexivity. }
  assert (Hlr : model args = "LR" -> known_feats (feats args) ->
            (exists c s', train_model args s = Ok (LogisticRegressionClassifier c, s')
                          /\ extractor_named (feats args) = Some (featurizer c))
            \/ train_model args s = Raise OverflowError).
  { intros Hm Hf.
    assert (Hnt : model args <> "TRIVIAL") by (rewrite Hm; discriminate).
    apply known_feats_named in Hf. destruct Hf as [fe Hfe].
    unfold train_model. unfold bind, lift.
    rewrite (choose_extractor_named args Hnt), Hfe.
    destruct (String.eqb_spec (model args) "TRIVIAL"); [contradiction | ].
    destruct (String.eqb_spec (model args) "PERCEPTRON"); [congruence | ].
    destruct (String.eqb_spec (model args) "LR"); [ | contradiction].
    destruct (with_extractor_post fe s) as [_ [(c & s' & Hrun & Hc) | Hrun]].
    - left. exists c, s'. rewrite Hrun, Hc. split; reflexivity.
    - right. rewrite Hrun. reflexivity. }
  assert (Hcases : forall m : string,
            m = "TRIVIAL" \/ m = "PERCEPTRON" \/ m = "LR" \/ ~ known_model m).
  { intros m. unfold known_model.
    destruct (String.eqb_spec m "TRIVIAL"); [auto | ].
    destruct (String.eqb_spec m "PERCEPTRON"); [auto | ].
    destruct (String.eqb_spec m "LR"); [auto | ].
    right. right. right. tauto. }
  assert (Hdec : known_feats (feats args) \/ ~ known_feats (feats args)).
  { destruct (extractor_named (feats args)) as [fe | ] eqn:Hfe.
    - left. apply known_feats_named. eauto.
    - right. intros Hk. apply known_feats_named in Hk. destruct Hk as [fe Hk].
      congruence. }
  split; [ | split; [ | auto]].
  - split.
    + intros [msg He].
      destruct (Hcases (model args)) as [Hm | [Hm | [Hm | Hm]]].
      * rewrite (Htrivial Hm) in He. discriminate.
      * destruct Hdec as [Hf | Hf].
        -- destruct (Hperceptron Hm Hf) as (c & s' & Hrun & _). congruence.
        -- right. split; [rewrite Hm; discriminate | exact Hf].
      * destruct Hdec as [Hf | Hf].
        -- destruct (Hlr Hm Hf) as [(c & s' & Hrun & _) | Hrun]; congruence.
        -- right. split; [rewrite Hm; discriminate | exact Hf].
      * left. exact Hm.
    + intros [Hm | [Hm Hf]].
      * destruct Hdec as [Hf | Hf].
        -- eexists. apply Hmodel; assumption.
        -- eexists. apply Hfeats; [ | exact Hf].
           intros Heq. apply Hm. left. exact Heq.
      * eexists. apply Hfeats; assumption.
  - intros e He.
    destruct (Hcases (model args)) as [Hm | [Hm | [Hm | Hm]]].
    + rewrite (Htrivial Hm) in He. discriminate.
    + destruct Hdec as [Hf | Hf].
      * destruct (Hperceptron Hm Hf) as (c & s' & Hrun & _). congruence.
      * rewrite Hfeats in He; [ | rewrite Hm; discriminate | exact Hf].
        injection He as <-. eauto.
    + destruct Hdec as [Hf | Hf].
      * destruct (Hlr Hm Hf) as [(c & s' & Hrun & _) | Hrun]; [congruence | ].
        rewrite Hrun in He. injection He as <-. right. auto.
      * rewrite Hfeats in He; [ | rewrite Hm; discriminate | exact Hf].
        injection He as <-. eauto.
    + destruct Hdec as [Hf | Hf].
      * rewrite (Hmodel Hm Hf) in He. injection He as <-. eauto.
      * rewrite Hfeats in He; [ | | exact Hf].
        -- injection He as <-. eauto.
        -- intros Heq. apply Hm. left. exact Heq.
Qed.

(** C3 as stated fails: with model TRIVIAL an unrecognised [feats] value
    raises nothing, the trivial classifier is returned. *)
Lemma trivial_model_ignores_feats :
  ~ known_feats "TRIGRAM"
  /\ @train_model _ R _ _ _ {| model := "TRIVIAL"; feats := "TRIGRAM" |}
       store_of_four
     = Ok (TrivialSentimentClassifier, store_of_four).
Proof.
  split.
  - unfold known_feats. intros [Hf | [Hf | Hf]]; discriminate.
  - reflexivity.
Qed.

(** * The logistic regression update, feature by feature *)

Section Recomputation.
Context `{Lowercase} {num : Type} `{Numeric num} `{Exponential num}.

(** The update as the spec words it: the probability is computed once,
    from the weights before the update, and every active feature [f]
    moves by [alpha * (1 - p) * features[f]]. *)
Definition lr_update_spec (train_ex : SentimentExample) (features : Counter)
  : M (classifier num) unit :=
  if Z.eqb (label train_ex) 1 then
    let* p := LogisticRegressionClassifier_predict (words train_ex) in
    if Z.eqb p 1 then ret tt
    else
      let* p1 := p_1_x (words train_ex) in
      for_each (counter_keys features) (fun f =>
        let* w := weight_at f in
        set_weight_at f
          (nadd w (nmul (nmul alpha_lr (nsub (of_Z 1) p1))
                        (of_Z (counter_get features f)))))
  else
    let* p := LogisticRegressionClassifier_predict (words train_ex) in
    if Z.eqb p 0 then ret tt
    else
      let* p0 := p_1_neg_x (words train_ex) in
      for_each (counter_keys features) (fun f =>
        let* w := weight_at f in
        set_weight_at f
          (nsub w (nmul (nmul alpha_lr (nsub (of_Z 1) p0))
                        (of_Z (counter_get features f))))).

(** A step that replaces the weight of its feature by a value computed
    from the classifier it finds. *)
Definition stepwise (step : nat -> M (classifier num) unit)
    (delta : classifier num -> num -> num) : Prop :=
  forall f c, covers c -> f < length (weight_vector c) ->
    step f c
    = Ok (tt, set_weight_vector
                (<[f:=delta c (nth f (weight_vector c) (of_Z 0))]>
                   (weight_vector c)) c).

Lemma nth_insert_ne (w : list num) (f k : nat) (v : num) :
  f <> k -> nth f (<[k:=v]> w) (of_Z 0) = nth f w (of_Z 0).
Proof.
  intros Hne. rewrite !nth_lookup, list_lookup_insert_ne by congruence.
  reflexivity.
Qed.

Lemma nth_insert_eq (w : list num) (f : nat) (v : num) :
  f < length w -> nth f (<[f:=v]> w) (of_Z 0) = v.
Proof.
  intros Hf. rewrite nth_lookup, list_lookup_insert_eq by exact Hf.
  reflexivity.
Qed.

(** A loop over other features leaves the weight of [f] alone. *)
Lemma loop_keeps_other (step : nat -> M (classifier num) unit)
    (delta : classifier num -> num -> num) (keys : list nat) (f : nat)
    (c : classifier num) :
  stepwise step delta -> covers c ->
  (forall k, In k keys -> k < length (weight_vector c)) -> ~ In f keys ->
  exists c', for_each keys step c = Ok (tt, c') /\ same_shape c c'
             /\ nth f (weight_vector c') (of_Z 0) = nth f (weight_vector c) (of_Z 0).
Proof.
  intros Hstep. revert c.
  induction keys as [ | k keys IH]; intros c Hcov Hkeys Hnotin.
  - exists c. split; [reflexivity | split; [apply same_shape_refl | reflexivity]].
  - simpl. unfold bind.
    rewrite (Hstep k c Hcov (Hkeys k (or_introl eq_refl))).
    set (c1 := set_weight_vector _ c).
    assert (Hshape : same_shape c c1) by apply set_weight_same_shape.
    destruct (IH c1) as (c' & Hrun & Hshape' & Hnth).
    + eapply same_shape_covers; eassumption.
    + intros k' Hk'. destruct Hshape as (_ & _ & ->). apply Hkeys. right. exact Hk'.
    + intros Hin. apply Hnotin. right. exact Hin.
    + exists c'. split; [exact Hrun | ].
      split; [eapply same_shape_trans; eassumption | ].
      rewrite Hnth. unfold c1. simpl. apply nth_insert_ne.
      intros ->. apply Hnotin. left. reflexivity.
Qed.

(** After the whole loop, the weight of an active feature is what its
    own step made of it, computed on the classifier the earlier steps
    left. *)
Lemma loop_weight_of_feature (step : nat -> M (classifier num) unit)
    (delta : classifier num -> num -> num) (earlier later : list nat) (f : nat)
    (c : classifier num) :
  stepwise step delta -> covers c ->
  List.NoDup (earlier ++ f :: later)%list ->
  (forall k, In k (earlier ++ f :: later)%list -> k < length (weight_vector c)) ->
  exists c1 c2,
    for_each earlier step c = Ok (tt, c1) /\ covers c1
    /\ for_each (earlier ++ f :: later)%list step c = Ok (tt, c2)
    /\ nth f (weight_vector c2) (of_Z 0)
       = delta c1 (nth f (weight_vector c) (of_Z 0)).
Proof.
  intros Hstep Hcov Hnd Hkeys.
  assert (Hf_earlier : ~ In f earlier).
  { apply List.NoDup_remove_2 in Hnd. intros Hin. apply Hnd, in_or_app.
    left. exact Hin. }
  assert (Hf_later : ~ In f later).
  { apply List.NoDup_remove_2 in Hnd. intros Hin. apply Hnd, in_or_app.
    right. exact Hin. }
  destruct (loop_keeps_other step delta earlier f c Hstep Hcov)
    as (c1 & Hrun1 & Hshape1 & Hnth1); [ | exact Hf_earlier | ].
  { intros k Hk. apply Hkeys, in_or_app. left. exact Hk. }
  assert (Hcov1 : covers c1) by (eapply same_shape_covers; eassumption).
  assert (Hlen1 : length (weight_vector c1) = length (weight_vector c))
    by apply Hshape1.
  assert (Hf : f < length (weight_vector c1)).
  { rewrite Hlen1. apply Hkeys, in_or_app. right. left. reflexivity. }
  pose proof (Hstep f c1 Hcov1 Hf) as Hrunf.
  set (c1' := set_weight_vector _ c1) in Hrunf.
  assert (Hshape1' : same_shape c1 c1') by apply set_weight_same_shape.
  destruct (loop_keeps_other step delta later f c1' Hstep)
    as (c2 & Hrun2 & Hshape2 & Hnth2); [ | | exact Hf_later | ].
  { eapply same_shape_covers; eassumption. }
  { intros k Hk. destruct Hshape1' as (_ & _ & ->). rewrite Hlen1.
    apply Hkeys, in_or_app. right. right. exact Hk. }
  exists c1, c2. split; [exact Hrun1 | split; [exact Hcov1 | split]].
  - rewrite for_each_app. unfold bind. rewrite Hrun1. simpl.
    unfold bind. rewrite Hrunf. exact Hrun2.
  - rewrite Hnth2. unfold c1'. simpl. rewrite nth_insert_eq by exact Hf.
    rewrite Hnth1. reflexivity.
Qed.

(** A step that reads a probability on the classifier it finds and
    moves the weight of its feature by [alpha * (1 - p)], unless the
    probability ends in [OverflowError]. *)
Definition recomputing (step : nat -> M (classifier num) unit)
    (prob : M (classifier num) num) (op : num -> num -> num) : Prop :=
  forall f c, covers c -> f < length (weight_vector c) ->
    post_or_overflow (step f) c (fun _ c' =>
      exists p,
        prob c = Ok (p, c)
        /\ c' = set_weight_vector
                  (<[f:=op (nth f (weight_vector c) (of_Z 0))
                          (nmul alpha_lr (nsub (of_Z 1) p))]>
                     (weight_vector c)) c).

Lemma recomputing_keeps_other (step : nat -> M (classifier num) unit)
    (prob : M (classifier num) num) (op : num -> num -> num)
    (keys : list nat) (f : nat) (c : classifier num) :
  recomputing step prob op -> covers c ->
  (forall k, In k keys -> k < length (weight_vector c)) -> ~ In f keys ->
  post_or_overflow (for_each keys step) c (fun _ c' =>
    same_shape c c'
    /\ nth f (weight_vector c') (of_Z 0) = nth f (weight_vector c) (of_Z 0)).
Proof.
  intros Hstep. revert c.
  induction keys as [ | k keys IH]; intros c Hcov Hkeys Hnotin.
  - apply partial_ret. split; [apply same_shape_refl | reflexivity].
  - simpl. apply partial_bind.
    eapply partial_mono; [apply (Hstep k c Hcov (Hkeys k (or_introl eq_refl))) | ].
    intros u c1 (p & _ & ->).
    set (c1 := set_weight_vector _ c).
    assert (Hshape : same_shape c c1) by apply set_weight_same_shape.
    eapply partial_mono; [apply (IH c1) | ].
    + eapply same_shape_covers; eassumption.
    + intros k' Hk'. destruct Hshape as (_ & _ & ->). apply Hkeys. right. exact Hk'.
    + intros Hin. apply Hnotin. right. exact Hin.
    + intros u' c' [Hshape' Hnth].
      split; [eapply same_shape_trans; eassumption | ].
      rewrite Hnth. unfold c1. simpl. apply nth_insert_ne.
      intros ->. apply Hnotin. left. reflexivity.
Qed.

(** If the whole loop returns, the weight of an active feature has moved
    by the probability read on the classifier the earlier steps left. *)
Lemma recomputing_weight_of_feature (step : nat -> M (classifier num) unit)
    (prob : M (classifier num) num) (op : num -> num -> num)
    (earlier later : list nat) (f : nat) (c : classifier num) :
  recomputing step prob op -> covers c ->
  List.NoDup (earlier ++ f :: later)%list ->
  (forall k, In k (earlier ++ f :: later)%list -> k < length (weight_vector c)) ->
  post_or_overflow (for_each (earlier ++ f :: later)%list step) c (fun _ c2 =>
    exists c1 p,
      for_each earlier step c = Ok (tt, c1)
      /\ prob c1 = Ok (p, c1)
      /\ nth f (weight_vector c2) (of_Z 0)
         = op (nth f (weight_vector c) (of_Z 0))
              (nmul alpha_lr (nsub (of_Z 1) p))).
Proof.
  intros Hstep Hcov Hnd Hkeys.
  assert (Hf_earlier : ~ In f earlier).
  { apply List.NoDup_remove_2 in Hnd. intros Hin. apply Hnd, in_or_app.
    left. exact Hin. }
  assert (Hf_later : ~ In f later).
  { apply List.NoDup_remove_2 in Hnd. intros Hin. apply Hnd, in_or_app.
    right. exact Hin. }
  pose proof (recomputing_keeps_other step prob op earlier f c Hstep Hcov) as Hearly.
  unfold post_or_overflow in *. rewrite for_each_app. unfold bind.
  destruct (for_each earlier step c) as [[[] c1] | e] eqn:Hrun1;
    [ | apply Hearly; [ | exact Hf_earlier]; intros k Hk; apply Hkeys, in_or_app;
        left; exact Hk].
  destruct Hearly as [Hshape1 Hnth1]; [ | exact Hf_earlier | ].
  { intros k Hk. apply Hkeys, in_or_app. left. exact Hk. }
  assert (Hcov1 : covers c1) by (eapply same_shape_covers; eassumption).
  assert (Hlen1 : length (weight_vector c1) = length (weight_vector c))
    by apply Hshape1.
  assert (Hf : f < length (weight_vector c1)).
  { rewrite Hlen1. apply Hkeys, in_or_app. right. left. reflexivity. }
  pose proof (Hstep f c1 Hcov1 Hf) as Hrunf. unfold post_or_overflow in Hrunf.
  simpl. unfold bind.
  destruct (step f c1) as [[[] c1'] | e]; [ | exact Hrunf].
  destruct Hrunf as (p & Hp & ->).
  set (c1' := set_weight_vector _ c1).
  assert (Hshape1' : same_shape c1 c1') by apply set_weight_same_shape.
  pose proof (recomputing_keeps_other step prob op later f c1' Hstep) as Hrest.
  unfold post_or_overflow in Hrest.
  assert (Hcov1' : covers c1') by (eapply same_shape_covers; eassumption).
  assert (Hlater : forall k, In k later -> k < length (weight_vector c1')).
  { intros k Hk. destruct Hshape1' as (_ & _ & ->). rewrite Hlen1.
    apply Hkeys, in_or_app. right. right. exact Hk. }
  specialize (Hrest Hcov1' Hlater Hf_later).
  destruct (for_each later step c1') as [[[] c2] | e]; [ | exact Hrest].
  destruct Hrest as [_ Hnth2]. exists c1, p.
  split; [reflexivity | split; [exact Hp | ]].
  rewrite Hnth2. unfold c1'. simpl. rewrite nth_insert_eq by exact Hf.
  rewrite Hnth1. reflexivity.
Qed.

Lemma lr_step_pos_recomputing (sentence : list string) :
  recomputing (lr_step_pos sentence) (p_1_x sentence) nadd.
Proof. intros f c Hcov Hf. apply lr_step_pos_eq; assumption. Qed.

Lemma lr_step_neg_recomputing (sentence : list string) :
  recomputing (lr_step_neg sentence) (p_1_neg_x sentence) nsub.
Proof. intros f c Hcov Hf. apply lr_step_neg_eq; assumption. Qed.

End Recomputation.

(** A two-word example with both words known, label 1. *)
Definition ab_example : SentimentExample := {| words := ["a"; "b"]; label := 1 |}.

Definition ab_features : Counter := [(0, 1%Z); (1, 1%Z)].

Definition ab_classifier {num : Type} (w : list num) : classifier num :=
  {| featurizer := UnigramFeatureExtractor; indexer := Indexer.Make ["a"; "b"];
     weight_vector := w |}.

Section TwoWords.
Context {num : Type} `{Numeric num} `{Exponential num}.

(** The score of the two words, and the probability from the value of
    [math.exp] at a score, as the code computes them. *)
Definition ab_score (w0 w1 : num) : num :=
  nadd (nadd (of_Z 0) (nmul (of_Z 1) w0)) (nmul (of_Z 1) w1).

Definition sigmoid_of (e : num) : num := ndiv e (nadd (of_Z 1) e).

Lemma ab_score_eq (w0 w1 w2 : num) :
  score ["a"; "b"] (ab_classifier [w0; w1; w2])
  = Ok (ab_score w0 w1, ab_classifier [w0; w1; w2]).
Proof. reflexivity. Qed.

Lemma ab_p_1_x (w0 w1 w2 e : num) :
  nexp (ab_score w0 w1) = Ok e ->
  p_1_x ["a"; "b"] (ab_classifier [w0; w1; w2])
  = Ok (sigmoid_of e, ab_classifier [w0; w1; w2]).
Proof.
  intros He. rewrite (p_1_x_eq _ _ _ _ (ab_score_eq w0 w1 w2)), He. reflexivity.
Qed.

Lemma ab_predict (w0 w1 w2 e : num) :
  nexp (ab_score w0 w1) = Ok e ->
  ngtb (sigmoid_of e) one_half = false ->
  LogisticRegressionClassifier_predict ["a"; "b"] (ab_classifier [w0; w1; w2])
  = Ok (0%Z, ab_classifier [w0; w1; w2]).
Proof.
  intros He Hp. unfold LogisticRegressionClassifier_predict. unfold bind.
  rewrite (ab_p_1_x w0 w1 w2 e He), Hp. reflexivity.
Qed.

(** The code on the two words: the second weight moves by the
    probability taken after the first weight has moved. *)
Lemma ab_lr_update (w0 w1 w2 e e' : num) :
  nexp (ab_score w0 w1) = Ok e ->
  ngtb (sigmoid_of e) one_half = false ->
  nexp (ab_score (nadd w0 (nmul alpha_lr (nsub (of_Z 1) (sigmoid_of e)))) w1)
    = Ok e' ->
  lr_update ab_example ab_features (ab_classifier [w0; w1; w2])
  = Ok (tt, ab_classifier
              [nadd w0 (nmul alpha_lr (nsub (of_Z 1) (sigmoid_of e)));
               nadd w1 (nmul alpha_lr (nsub (of_Z 1) (sigmoid_of e')));
               w2]).
Proof.
  intros He Hp He'. unfold lr_update, ab_example. cbn [label words Z.eqb Pos.eqb].
  unfold bind at 1. rewrite (ab_predict w0 w1 w2 e He Hp).
  cbn [Z.eqb counter_keys ab_features map fst for_each]. unfold bind.
  rewrite (lr_step_pos_returns ["a"; "b"] 0 (ab_classifier [w0; w1; w2])
             (sigmoid_of e) ltac:(simpl; lia) (ab_p_1_x w0 w1 w2 e He)).
  change (set_weight_vector _ (ab_classifier [w0; w1; w2]))
    with (ab_classifier
            [nadd w0 (nmul alpha_lr (nsub (of_Z 1) (sigmoid_of e))); w1; w2]).
  rewrite (lr_step_pos_returns ["a"; "b"] 1
             (ab_classifier
                [nadd w0 (nmul alpha_lr (nsub (of_Z 1) (sigmoid_of e))); w1; w2])
             (sigmoid_of e') ltac:(simpl; lia) (ab_p_1_x _ w1 w2 e' He')).
  reflexivity.
Qed.

Lemma ab_lr_update_spec (w0 w1 w2 e : num) :
  nexp (ab_score w0 w1) = Ok e ->
  ngtb (sigmoid_of e) one_half = false ->
  let d := nmul (nmul alpha_lr (nsub (of_Z 1) (sigmoid_of e))) (of_Z 1) in
  lr_update_spec ab_example ab_features (ab_classifier [w0; w1; w2])
  = Ok (tt, ab_classifier [nadd w0 d; nadd w1 d; w2]).
Proof.
  intros He Hp d. unfold lr_update_spec, ab_example. cbn [label words Z.eqb Pos.eqb].
  unfold bind at 1. rewrite (ab_predict w0 w1 w2 e He Hp).
  cbn [Z.eqb]. unfold bind at 1. rewrite (ab_p_1_x w0 w1 w2 e He). reflexivity.
Qed.

End TwoWords.

(** Over the reals, from zero weights. *)
Lemma sigmoid_R_gt (s : R) : (0 < s)%R -> (1 / 2 < exp s / (1 + exp s))%R.
Proof.
  intros Hs.
  pose proof (exp_increasing 0 s Hs) as Hexp. rewrite exp_0 in Hexp.
  set (q := (1 / (1 + exp s))%R).
  assert (Hq : (q * (1 + exp s) = 1)%R) by (unfold q; field; lra).
  assert (Hpos : (0 < q)%R) by (apply Rdiv_lt_0_compat; lra).
  replace (exp s / (1 + exp s))%R with (1 - q)%R by (unfold q; field; lra).
  nra.
Qed.

Lemma ab_exp_R_0 : nexp (ab_score 0%R 0%R) = Ok 1%R.
Proof.
  change (exp_R (0 + 1 * 0 + 1 * 0) = Ok 1%R).
  rewrite exp_R_returns by lra.
  replace (0 + 1 * 0 + 1 * 0)%R with 0%R by lra. rewrite exp_0. reflexivity.
Qed.

Lemma sigmoid_of_1 : sigmoid_of 1%R = (1 / 2)%R.
Proof. unfold sigmoid_of. simpl. lra. Qed.

Lemma not_yet_positive_R : ngtb (sigmoid_of 1%R) one_half = false.
Proof.
  rewrite sigmoid_of_1. unfold one_half. simpl. apply Rgtb_irrefl.
Qed.

Lemma ab_first_weight_R :
  nadd 0%R (nmul alpha_lr (nsub (of_Z 1) (sigmoid_of 1%R))) = (1 / 20)%R.
Proof. rewrite sigmoid_of_1. unfold alpha_lr. simpl. lra. Qed.

Lemma ab_exp_R_1 :
  nexp (ab_score (nadd 0%R (nmul alpha_lr (nsub (of_Z 1) (sigmoid_of 1%R)))) 0%R)
  = Ok (exp (1 / 20)).
Proof.
  rewrite ab_first_weight_R.
  change (exp_R (0 + 1 * (1 / 20) + 1 * 0) = Ok (exp (1 / 20))).
  rewrite exp_R_returns by lra.
  replace (0 + 1 * (1 / 20) + 1 * 0)%R with (1 / 20)%R by lra. reflexivity.
Qed.

Lemma ab_second_weight_R :
  nadd 0%R (nmul alpha_lr (nsub (of_Z 1) (sigmoid_of (exp (1 / 20)))))
  = (1 / 10 * (1 - exp (1 / 20) / (1 + exp (1 / 20))))%R.
Proof. unfold sigmoid_of, alpha_lr. simpl. ring. Qed.

Lemma ab_lr_update_R :
  lr_update ab_example ab_features (ab_classifier [0%R; 0%R; 0%R])
  = Ok (tt, ab_classifier
              [(1 / 20)%R;
               (1 / 10 * (1 - exp (1 / 20) / (1 + exp (1 / 20))))%R;
               0%R]).
Proof.
  rewrite (ab_lr_update 0%R 0%R 0%R 1%R (exp (1 / 20))
             ab_exp_R_0 not_yet_positive_R ab_exp_R_1).
  rewrite ab_first_weight_R, ab_second_weight_R. reflexivity.
Qed.

(** C2, as the code has it.  In the update of one example whose active
    features are [earlier ++ f :: later], entered because the
    prediction differs from the label, the update returns or ends in
    the [OverflowError] of [math.exp]; when it returns, the weight of
    [f] has moved by [alpha * (1 - p)], added for label 1 with
    [p = p_1_x] and subtracted otherwise with [p = p_1_neg_x], where
    [p] is evaluated on the classifier left by the updates of the
    earlier features of the same example: the probability is recomputed
    for every feature, and only the first feature sees the weights from
    before the update. *)
Theorem lr_update_recomputes `{Lowercase} {num : Type} `{Numeric num} `{Exponential num}
    (train_ex : SentimentExample) (features : Counter)
    (earlier later : list nat) (f : nat) (c : classifier num) :
  covers c ->
  counter_keys features = (earlier ++ f :: later)%list ->
  List.NoDup (counter_keys features) ->
  (forall k, In k (counter_keys features) -> k < length (weight_vector c)) ->
  (label train_ex = 1%Z ->
   LogisticRegressionClassifier_predict (words train_ex) c = Ok (0%Z, c) ->
   post_or_overflow (lr_update train_ex features) c (fun _ c2 =>
     exists c1 p,
       for_each earlier (lr_step_pos (words train_ex)) c = Ok (tt, c1)
       /\ p_1_x (words train_ex) c1 = Ok (p, c1)
       /\ nth f (weight_vector c2) (of_Z 0)
          = nadd (nth f (weight_vector c) (of_Z 0))
                 (nmul alpha_lr (nsub (of_Z 1) p))))
  /\ (label train_ex <> 1%Z ->
      LogisticRegressionClassifier_predict (words train_ex) c = Ok (1%Z, c) ->
      post_or_overflow (lr_update train_ex features) c (fun _ c2 =>
        exists c1 p,
          for_each earlier (lr_step_neg (words train_ex)) c = Ok (tt, c1)
          /\ p_1_neg_x (words train_ex) c1 = Ok (p, c1)
          /\ nth f (weight_vector c2) (of_Z 0)
             = nsub (nth f (weight_vector c) (of_Z 0))
                    (nmul alpha_lr (nsub (of_Z 1) p)))).
Proof.
  intros Hcov Hkeys Hnd Hlt. rewrite Hkeys in Hnd, Hlt. split.
  - intros Hlabel Hpredict.
    pose proof (recomputing_weight_of_feature _ _ _ earlier later f c
                  (lr_step_pos_recomputing (words train_ex)) Hcov Hnd Hlt) as Hloop.
    unfold post_or_overflow in *. unfold lr_update. rewrite Hlabel.
    cbn [Z.eqb Pos.eqb]. unfold bind. rewrite Hpredict, Hkeys. exact Hloop.
  - intros Hlabel Hpredict.
    pose proof (recomputing_weight_of_feature _ _ _ earlier later f c
                  (lr_step_neg_recomputing (words train_ex)) Hcov Hnd Hlt) as Hloop.
    unfold post_or_overflow in *. unfold lr_update.
    apply Z.eqb_neq in Hlabel. rewrite Hlabel.
    unfold bind. rewrite Hpredict, Hkeys. exact Hloop.
Qed.

Lemma lr_update_recomputes_witness :
  exists c2 c1 p,
    lr_update ab_example ab_features (ab_classifier [0%R; 0%R; 0%R])
      = Ok (tt, c2)
    /\ for_each [0] (lr_step_pos ["a"; "b"]) (ab_classifier [0%R; 0%R; 0%R])
       = Ok (tt, c1)
    /\ p_1_x ["a"; "b"] c1 = Ok (p, c1)
    /\ nth 1 (weight_vector c2) 0%R = (0 + 1 / 10 * (1 - p))%R.
Proof.
  assert (Hcov : covers (ab_classifier [0%R; 0%R; 0%R]))
    by (unfold covers, Indexer.size; simpl; lia).
  assert (Hnd : List.NoDup (counter_keys ab_features))
    by (simpl; repeat constructor; simpl; intuition lia).
  assert (Hlt : forall k, In k (counter_keys ab_features) ->
                  k < length (weight_vector (ab_classifier [0%R; 0%R; 0%R])))
    by (simpl; intros k Hk; lia).
  destruct (lr_update_recomputes ab_example ab_features [0] [] 1
              (ab_classifier [0%R; 0%R; 0%R]) Hcov eq_refl Hnd Hlt)
    as [Hpos _].
  pose proof (partial_returned _ _ _ _ _
                (Hpos eq_refl (ab_predict 0%R 0%R 0%R 1%R ab_exp_R_0 not_yet_positive_R))
                ab_lr_update_R) as (c1 & p & Hrun & Hp & Hnth).
  eexists _, c1, p. split; [exact ab_lr_update_R | ].
  split; [exact Hrun | split; [exact Hp | exact Hnth]].
Defined.

(** C2 as stated fails: on the two-word example the code moves the
    second weight by less than the first, because the probability it
    uses there has already risen; the update of the spec moves both by
    the same amount. *)
Lemma probability_recomputed_per_feature :
  lr_update ab_example ab_features (ab_classifier [0%R; 0%R; 0%R])
    = Ok (tt, ab_classifier
                [(1 / 20)%R;
                 (1 / 10 * (1 - exp (1 / 20) / (1 + exp (1 / 20))))%R;
                 0%R])
  /\ lr_update_spec ab_example ab_features (ab_classifier [0%R; 0%R; 0%R])
     = Ok (tt, ab_classifier [(1 / 20)%R; (1 / 20)%R; 0%R])
  /\ lr_update ab_example ab_features (ab_classifier [0%R; 0%R; 0%R])
     <> lr_update_spec ab_example ab_features (ab_classifier [0%R; 0%R; 0%R]).
Proof.
  pose proof ab_lr_update_R as Hcode.
  assert (Hspec : lr_update_spec ab_example ab_features
                    (ab_classifier [0%R; 0%R; 0%R])
            = Ok (tt, ab_classifier [(1 / 20)%R; (1 / 20)%R; 0%R])).
  { rewrite (ab_lr_update_spec 0%R 0%R 0%R 1%R ab_exp_R_0 not_yet_positive_R).
    cbv zeta.
    replace (nadd 0%R (nmul (nmul alpha_lr (nsub (of_Z 1) (sigmoid_of 1%R)))
                          (of_Z 1)))
      with (1 / 20)%R; [reflexivity | ].
    rewrite sigmoid_of_1. unfold alpha_lr. simpl. lra. }
  split; [exact Hcode | ]. split; [exact Hspec | ].
  rewrite Hcode, Hspec. intros Heq. injection Heq as Heq.
  pose proof (sigmoid_R_gt (1 / 20)%R ltac:(lra)) as Hgt. lra.
Qed.

(** * More on the extractors *)

(** The n-grams of a sentence, in lower case and in sentence order:
    what the three loops look up, read as lists. *)
Section Ngrams.
Context `{Lowercase}.

Definition unigrams (sentence : list string) : list string := map lower sentence.

Fixpoint bigrams (sentence : list string) : list string :=
  match sentence with
  | a :: (b :: _) as rest => lower (a ++ " " ++ b) :: bigrams rest
  | _ => []
  end.

Fixpoint trigrams (sentence : list string) : list string :=
  match sentence with
  | a :: (b :: c :: _) as rest => lower (a ++ " " ++ b ++ " " ++ c) :: trigrams rest
  | _ => []
  end.

Definition ngrams (fe : FeatureExtractor) (sentence : list string) : list string :=
  match fe with
  | UnigramFeatureExtractor => unigrams sentence
  | BigramFeatureExtractor => bigrams sentence
  | BetterFeatureExtractor => trigrams sentence
  end.

End Ngrams.

(** The loop of the extractors over a list of n-grams. *)
Definition extract_grams (grams : list string) (add_to_indexer : bool)
    (features : Counter) : M Indexer.t Counter :=
  extract_loop grams (fun gram => Ok gram) add_to_indexer features.

Lemma extract_loop_grams {A} (xs : list A) (gram_of : A -> result string)
    (grams : list string) (add_to_indexer : bool) (features : Counter)
    (ix : Indexer.t) :
  map gram_of xs = map Ok grams ->
  extract_loop xs gram_of add_to_indexer features ix
  = extract_grams grams add_to_indexer features ix.
Proof.
  unfold extract_grams. revert grams features ix.
  induction xs as [ | x xs IH]; intros [ | g grams] features ix Hmap;
    try discriminate; [reflexivity | ].
  injection Hmap as Hx Hrest. cbn [extract_loop]. unfold bind.
  rewrite Hx. unfold lift.
  destruct (record_feature add_to_indexer g features ix) as [[f1 ix1] | e];
    [ | reflexivity].
  apply IH, Hrest.
Qed.

Lemma bigram_at_cons `{Lowercase} (a : string) (sentence : list string) (i : nat) :
  bigram_at (a :: sentence) (S i) = bigram_at sentence i.
Proof. reflexivity. Qed.

Lemma trigram_at_cons `{Lowercase} (a : string) (sentence : list string) (i : nat) :
  trigram_at (a :: sentence) (S i) = trigram_at sentence i.
Proof. reflexivity. Qed.

Lemma bigram_at_all `{Lowercase} (sentence : list string) :
  map (bigram_at sentence) (seq 0 (length sentence - 1)) = map Ok (bigrams sentence).
Proof.
  induction sentence as [ | a [ | b rest] IH]; [reflexivity | reflexivity | ].
  replace (length (a :: b :: rest) - 1) with (S (length (b :: rest) - 1))
    by (simpl; lia).
  change (bigrams (a :: b :: rest))
    with (lower (a ++ " " ++ b) :: bigrams (b :: rest)).
  rewrite <- cons_seq, <- seq_shift. cbn [map]. rewrite map_map.
  f_equal. rewrite <- IH. apply map_ext. intros i. apply bigram_at_cons.
Qed.

Lemma trigram_at_all `{Lowercase} (sentence : list string) :
  map (trigram_at sentence) (seq 0 (length sentence - 2)) = map Ok (trigrams sentence).
Proof.
  induction sentence as [ | a [ | b [ | c rest]] IH];
    [reflexivity | reflexivity | reflexivity | ].
  replace (length (a :: b :: c :: rest) - 2) with (S (length (b :: c :: rest) - 2))
    by (simpl; lia).
  change (trigrams (a :: b :: c :: rest))
    with (lower (a ++ " " ++ b ++ " " ++ c) :: trigrams (b :: c :: rest)).
  rewrite <- cons_seq, <- seq_shift. cbn [map]. rewrite map_map.
  f_equal. rewrite <- IH. apply map_ext. intros i. apply trigram_at_cons.
Qed.

(** Every extractor is the one loop, run over the n-grams of its order. *)
Lemma extract_features_grams `{Lowercase} (fe : FeatureExtractor) (sentence : list string)
    (add_to_indexer : bool) (ix : Indexer.t) :
  extract_features fe sentence add_to_indexer ix
  = extract_grams (ngrams fe sentence) add_to_indexer [] ix.
Proof.
  destruct fe; cbn [extract_features ngrams]; apply extract_loop_grams.
  - unfold unigrams, unigram_at. rewrite map_map. reflexivity.
  - unfold range.
    replace (Z.to_nat (Z.of_nat (length sentence) - 1)) with (length sentence - 1)
      by lia.
    apply bigram_at_all.
  - unfold range.
    replace (Z.to_nat (Z.of_nat (length sentence) - 2)) with (length sentence - 2)
      by lia.
    apply trigram_at_all.
Qed.

Lemma record_feature_cases (add_to_indexer : bool) (gram : string)
    (features : Counter) (ix : Indexer.t) :
  record_feature add_to_indexer gram features ix
  = match Indexer.position gram (Indexer.objs ix) with
    | Some i => Ok (counter_set i 1%Z features, ix)
    | None =>
        if add_to_indexer
        then Ok (counter_set (Indexer.size ix) 1%Z features,
                 Indexer.Make (Indexer.objs ix ++ [gram]))
        else Ok (features, ix)
    end.
Proof.
  unfold record_feature, Indexer.contains, Indexer.index_of,
    Indexer.add_and_get_index. unfold_monad.
  destruct (Indexer.position gram (Indexer.objs ix)) as [i | ] eqn:Hpos.
  - rewrite Hpos. reflexivity.
  - destruct add_to_indexer; [rewrite Hpos | ]; reflexivity.
Qed.

Lemma position_In (key : string) (l : list string) :
  In key l <-> exists i, Indexer.position key l = Some i.
Proof.
  induction l as [ | o l IH]; simpl.
  - split; [tauto | intros [i Hi]; discriminate].
  - destruct (String.eqb_spec key o) as [-> | Hne].
    + split; eauto.
    + rewrite IH. split.
      * intros [Heq | [i Hi]]; [congruence | ]. rewrite Hi. simpl. eauto.
      * intros [i Hi]. right.
        destruct (Indexer.position key l) as [j | ]; [eauto | discriminate].
Qed.

(** All the values of a vector are 1. *)
Definition all_ones (features : Counter) : Prop :=
  forall k v, In (k, v) features -> v = 1%Z.

Lemma counter_set_all_ones (k : nat) (features : Counter) :
  all_ones features -> all_ones (counter_set k 1%Z features).
Proof.
  unfold all_ones. induction features as [ | [k0 v0] features IH]; simpl; intros Hall k' v'.
  - intros [[= <- <-] | []]. reflexivity.
  - destruct (Nat.eqb k k0).
    + intros [[= <- <-] | Hin]; [reflexivity | ]. eapply Hall. right. exact Hin.
    + intros [[= <- <-] | Hin].
      * eapply Hall. left. reflexivity.
      * eapply IH; [ | exact Hin]. intros k1 v1 H1. eapply Hall. right. exact H1.
Qed.

(** What the loop over a list of n-grams returns: the indexer grows at
    its end, by n-grams of the list only and in growth mode only; the
    keys are those of the vector it started with and the indices the
    final indexer gives to n-grams of the list; in growth mode every
    n-gram of the list ends up in the indexer. *)
Definition grams_post (grams : list string) (add_to_indexer : bool)
    (f0 : Counter) (ix : Indexer.t) (fs : Counter) (ix' : Indexer.t) : Prop :=
  extends ix ix'
  /\ (add_to_indexer = false -> ix' = ix)
  /\ (forall g, In g (Indexer.objs ix') -> In g (Indexer.objs ix) \/ In g grams)
  /\ (forall k, In k (counter_keys fs) <->
        In k (counter_keys f0)
        \/ exists g, In g grams /\ Indexer.position g (Indexer.objs ix') = Some k)
  /\ (add_to_indexer = true ->
      forall g, In g grams -> In g (Indexer.objs ix'))
  /\ (all_ones f0 -> all_ones fs).

Lemma extract_grams_post (grams : list string) (add_to_indexer : bool)
    (f0 : Counter) (ix : Indexer.t) :
  post (extract_grams grams add_to_indexer f0) ix
       (fun fs ix' => grams_post grams add_to_indexer f0 ix fs ix').
Proof.
  unfold extract_grams. revert f0 ix.
  induction grams as [ | g grams IH]; intros f0 ix.
  - apply post_ret. unfold grams_post.
    split; [apply extends_refl | ]. split; [reflexivity | ].
    split; [auto | ]. split; [ | split; [intros _ g [] | auto]].
    intros k. split; [auto | ]. intros [Hk | (g & [] & _)]. exact Hk.
  - cbn [extract_loop]. apply post_bind, (post_lift _ g); [reflexivity | ].
    apply post_bind. unfold post at 1. rewrite record_feature_cases.
    assert (Hstep : forall f1 ix1,
              extends ix ix1 ->
              (add_to_indexer = false -> ix1 = ix) ->
              (forall g', In g' (Indexer.objs ix1) ->
                 In g' (Indexer.objs ix) \/ g' = g) ->
              (forall k, In k (counter_keys f1) <->
                 In k (counter_keys f0)
                 \/ Indexer.position g (Indexer.objs ix1) = Some k) ->
              (add_to_indexer = true -> In g (Indexer.objs ix1)) ->
              (all_ones f0 -> all_ones f1) ->
              post (extract_loop grams (fun gram => Ok gram) add_to_indexer f1) ix1
                (fun fs ix' => grams_post (g :: grams) add_to_indexer f0 ix fs ix')).
    { intros f1 ix1 Hext1 Hsame1 Hobjs1 Hkeys1 Hin1 Hones1.
      eapply post_mono; [apply IH | ].
      intros fs ix' (Hext & Hsame & Hobjs & Hkeys & Hin & Hones).
      assert (Hstable : forall g' k,
                Indexer.position g' (Indexer.objs ix1) = Some k ->
                Indexer.position g' (Indexer.objs ix') = Some k).
      { intros g' k Hpos. destruct Hext as [more ->].
        apply position_app_known, Hpos. }
      unfold grams_post.
      split; [eapply extends_trans; eassumption | ].
      split; [intros Hadd; rewrite (Hsame Hadd); apply Hsame1, Hadd | ].
      split.
      { intros g' Hg'. destruct (Hobjs g' Hg') as [H1 | H1]; [ | right; right; exact H1].
        destruct (Hobjs1 g' H1) as [H2 | ->]; [left; exact H2 | right; left; reflexivity]. }
      split.
      { intros k. rewrite Hkeys, Hkeys1. split.
        - intros [[Hk | Hk] | (g' & Hg' & Hk)].
          + left. exact Hk.
          + right. exists g. split; [left; reflexivity | apply Hstable, Hk].
          + right. exists g'. split; [right; exact Hg' | exact Hk].
        - intros [Hk | (g' & [<- | Hg'] & Hk)].
          + left. left. exact Hk.
          + destruct (Indexer.position g (Indexer.objs ix1)) as [i | ] eqn:Hpos1.
            * rewrite (Hstable g i Hpos1) in Hk. left. right. congruence.
            * exfalso. destruct add_to_indexer.
              -- apply position_In in Hin1; [ | reflexivity].
                 destruct Hin1 as [i Hi]. congruence.
              -- rewrite (Hsame eq_refl) in Hk. congruence.
          + right. exists g'. split; assumption. }
      split.
      { intros Hadd g' [<- | Hg'].
        - apply position_In. destruct (proj1 (position_In g _) (Hin1 Hadd)) as [i Hi].
          exists i. apply Hstable, Hi.
        - apply Hin; assumption. }
      intros H0. apply Hones, Hones1, H0. }
    destruct (Indexer.position g (Indexer.objs ix)) as [i | ] eqn:Hpos.
    + apply Hstep.
      * apply extends_refl.
      * reflexivity.
      * auto.
      * intros k. rewrite counter_keys_set, Hpos. split.
        -- intros [-> | Hk]; [right; reflexivity | left; exact Hk].
        -- intros [Hk | [= <-]]; [right; exact Hk | left; reflexivity].
      * intros _. apply position_In. eauto.
      * apply counter_set_all_ones.
    + destruct add_to_indexer.
      * apply Hstep.
        -- exists [g]. reflexivity.
        -- discriminate.
        -- cbn [Indexer.objs]. intros g' Hg'. apply in_app_or in Hg'.
           destruct Hg' as [Hg' | [<- | []]]; auto.
        -- intros k. cbn [Indexer.objs].
           rewrite counter_keys_set, (position_app_new g _ Hpos). split.
           ++ intros [-> | Hk]; [right; reflexivity | left; exact Hk].
           ++ intros [Hk | [= <-]]; [right; exact Hk | left; reflexivity].
        -- intros _. cbn [Indexer.objs]. apply in_or_app. right. left. reflexivity.
        -- apply counter_set_all_ones.
      * apply Hstep.
        -- apply extends_refl.
        -- reflexivity.
        -- auto.
        -- intros k. rewrite Hpos. split; [auto | ]. intros [Hk | Hk]; [exact Hk | discriminate].
        -- discriminate.
        -- auto.
Qed.

Lemma index_of_position (gram : string) (ix : Indexer.t) (k : nat) :
  Indexer.index_of gram ix = Ok (k, ix)
  <-> Indexer.position gram (Indexer.objs ix) = Some k.
Proof.
  unfold Indexer.index_of.
  destruct (Indexer.position gram (Indexer.objs ix)) as [i | ]; split;
    intros Heq; congruence.
Qed.

Lemma contains_In (gram : string) (ix : Indexer.t) :
  Indexer.contains ix gram = true <-> In gram (Indexer.objs ix).
Proof.
  rewrite position_In. unfold Indexer.contains.
  destruct (Indexer.position gram (Indexer.objs ix)) as [i | ]; split;
    [eauto | reflexivity | discriminate | intros [i Hi]; discriminate].
Qed.

Lemma extract_features_grams_post `{Lowercase} (fe : FeatureExtractor) (sentence : list string)
    (add_to_indexer : bool) (ix : Indexer.t) :
  post (extract_features fe sentence add_to_indexer) ix
       (fun fs ix' => grams_post (ngrams fe sentence) add_to_indexer [] ix fs ix').
Proof.
  pose proof (extract_grams_post (ngrams fe sentence) add_to_indexer [] ix) as Hgrams.
  unfold post in *. rewrite extract_features_grams. exact Hgrams.
Qed.

(** X1.  Whatever the extractor, the mode and the indexer, the vector
    returned has one entry per feature index and each entry has value 1:
    an n-gram that occurs several times in the sentence still counts 1. *)
Theorem feature_values_are_one `{Lowercase} (fe : FeatureExtractor) (sentence : list string)
    (add_to_indexer : bool) (ix : Indexer.t) :
  post (extract_features fe sentence add_to_indexer) ix (fun features _ =>
    List.NoDup (counter_keys features)
    /\ forall k, In k (counter_keys features) -> counter_get features k = 1%Z).
Proof.
  pose proof (extract_features_post fe sentence add_to_indexer ix) as Hpost.
  pose proof (extract_features_grams_post fe sentence add_to_indexer ix) as Hgrams.
  eapply post_mono; [apply (post_and _ _ _ _ Hpost Hgrams) | ].
  intros features ix' [(_ & Hnd & _) (_ & _ & _ & _ & _ & Hones)].
  split; [exact Hnd | ]. intros k Hk.
  unfold counter_keys in Hk. apply in_map_iff in Hk. destruct Hk as ([k' v] & <- & Hin).
  assert (Hv : v = 1%Z) by (eapply Hones; [intros ? ? [] | exact Hin]).
  subst v. apply counter_get_in; assumption.
Qed.

(** X3.  In inference mode the keys of the vector are exactly the
    indices the indexer gives to the n-grams of the sentence it knows. *)
Theorem inference_keys_are_known_ngrams `{Lowercase} (fe : FeatureExtractor)
    (sentence : list string) (ix : Indexer.t) :
  exists features,
    extract_features fe sentence false ix = Ok (features, ix)
    /\ forall k, In k (counter_keys features) <->
         exists gram, In gram (ngrams fe sentence)
                      /\ Indexer.index_of gram ix = Ok (k, ix).
Proof.
  pose proof (extract_features_grams_post fe sentence false ix) as Hgrams.
  apply post_eq in Hgrams.
  destruct Hgrams as (features & ix' & Hrun & _ & Hsame & _ & Hkeys & _).
  specialize (Hsame eq_refl). subst ix'.
  exists features. split; [exact Hrun | ].
  intros k. rewrite Hkeys. split.
  - intros [[] | (g & Hg & Hpos)]. exists g. split; [exact Hg | ].
    apply index_of_position, Hpos.
  - intros (g & Hg & Hidx). right. exists g. split; [exact Hg | ].
    apply index_of_position, Hidx.
Qed.

(** X4.  In growth mode extraction returns; every string the indexer
    knew keeps its index; every n-gram of the sentence is in the indexer
    afterwards and nothing else was added; the keys of the vector are
    exactly the indices of the n-grams of the sentence. *)
Theorem growth_indexes_every_ngram `{Lowercase} (fe : FeatureExtractor)
    (sentence : list string) (ix : Indexer.t) :
  post (extract_features fe sentence true) ix (fun features ix' =>
    (forall gram k, Indexer.index_of gram ix = Ok (k, ix) ->
                    Indexer.index_of gram ix' = Ok (k, ix'))
    /\ (forall gram, In gram (ngrams fe sentence) ->
                     Indexer.contains ix' gram = true)
    /\ (forall gram, Indexer.contains ix' gram = true ->
                     Indexer.contains ix gram = true
                     \/ In gram (ngrams fe sentence))
    /\ (forall k, In k (counter_keys features) <->
          exists gram, In gram (ngrams fe sentence)
                       /\ Indexer.index_of gram ix' = Ok (k, ix'))).
Proof.
  pose proof (extract_features_grams_post fe sentence true ix) as Hgrams.
  eapply post_mono; [exact Hgrams | ].
  intros features ix' (Hext & _ & Hobjs & Hkeys & Hin & _).
  split; [ | split; [ | split]].
  - intros g k Hidx. apply index_of_position. apply index_of_position in Hidx.
    destruct Hext as [more ->]. apply position_app_known, Hidx.
  - intros g Hg. apply contains_In, Hin; [reflexivity | exact Hg].
  - intros g Hg. apply contains_In in Hg. rewrite contains_In. apply Hobjs, Hg.
  - intros k. rewrite Hkeys. split.
    + intros [[] | (g & Hg & Hpos)]. exists g. split; [exact Hg | ].
      apply index_of_position, Hpos.
    + intros (g & Hg & Hidx). right. exists g. split; [exact Hg | ].
      apply index_of_position, Hidx.
Qed.

(** Once a growth-mode run has been through the n-grams, a run in either
    mode on the indexer it left, or on any later indexer, builds the
    same vector and adds nothing. *)
Lemma extract_grams_again (grams : list string) (f0 fs : Counter)
    (ix ix' : Indexer.t) :
  extract_grams grams true f0 ix = Ok (fs, ix') ->
  forall (mode : bool) (ix2 : Indexer.t), extends ix' ix2 ->
    extract_grams grams mode f0 ix2 = Ok (fs, ix2).
Proof.
  unfold extract_grams. revert f0 ix.
  induction grams as [ | g grams IH]; intros f0 ix Hrun mode ix2 Hext2.
  - injection Hrun as <- <-. reflexivity.
  - cbn [extract_loop] in *. unfold bind, lift in *.
    destruct (record_feature true g f0 ix) as [[f1 ix1] | e] eqn:Hrec;
      [ | discriminate].
    assert (Hpos1 : exists i, Indexer.position g (Indexer.objs ix1) = Some i
                              /\ f1 = counter_set i 1%Z f0).
    { rewrite record_feature_cases in Hrec.
      destruct (Indexer.position g (Indexer.objs ix)) as [i | ] eqn:Hpos.
      - injection Hrec as <- <-. eauto.
      - injection Hrec as <- <-. exists (Indexer.size ix).
        split; [apply position_app_new, Hpos | reflexivity]. }
    destruct Hpos1 as (i & Hpos1 & ->).
    pose proof (extract_grams_post grams true (counter_set i 1%Z f0) ix1) as Hpost.
    unfold post, extract_grams in Hpost. rewrite Hrun in Hpost.
    destruct Hpost as (Hext1 & _).
    assert (Hpos2 : Indexer.position g (Indexer.objs ix2) = Some i).
    { destruct (extends_trans _ _ _ Hext1 Hext2) as [more ->].
      apply position_app_known, Hpos1. }
    rewrite record_feature_cases, Hpos2.
    eapply IH; eassumption.
Qed.

(** X5.  After an extraction in growth mode, extracting the same
    sentence again on the indexer it left gives the same vector and
    leaves the indexer alone, in inference mode and in growth mode. *)
Theorem extraction_repeats_after_growth `{Lowercase} (fe : FeatureExtractor)
    (sentence : list string) (ix : Indexer.t) :
  post (extract_features fe sentence true) ix (fun features ix' =>
    extract_features fe sentence false ix' = Ok (features, ix')
    /\ extract_features fe sentence true ix' = Ok (features, ix')).
Proof.
  pose proof (extract_features_post fe sentence true ix) as Hpost.
  apply post_eq in Hpost. destruct Hpost as (features & ix' & Hrun & _).
  unfold post. rewrite Hrun. rewrite !extract_features_grams in *.
  split; eapply extract_grams_again; try exact Hrun; apply extends_refl.
Qed.

(** ** Case *)

(** X2.  Extraction sees a sentence only through its lower-cased
    n-grams: two sentences whose n-grams of the extractor's order agree
    once in lower case give the same vector and the same indexer, in
    either mode and whatever [str.lower] does to each string. *)
Theorem extraction_ignores_case `{Lowercase} (fe : FeatureExtractor)
    (sentence1 sentence2 : list string) (add_to_indexer : bool) (ix : Indexer.t) :
  ngrams fe sentence1 = ngrams fe sentence2 ->
  extract_features fe sentence1 add_to_indexer ix
  = extract_features fe sentence2 add_to_indexer ix.
Proof.
  intros Hlower. rewrite !extract_features_grams, Hlower. reflexivity.
Qed.

Lemma extraction_ignores_case_witness :
  ngrams BigramFeatureExtractor ["The"; "Movie"; "ROCKS"]
    = ["the movie"; "movie rocks"]
  /\ extract_features BigramFeatureExtractor ["The"; "Movie"; "ROCKS"] true
       Indexer.empty
     = extract_features BigramFeatureExtractor ["the"; "MOVIE"; "rocks"] true
         Indexer.empty.
Proof.
  split; [reflexivity | ].
  apply (extraction_ignores_case BigramFeatureExtractor
           ["The"; "Movie"; "ROCKS"] ["the"; "MOVIE"; "rocks"] true Indexer.empty).
  reflexivity.
Defined.

(** * More on the classifiers *)

Section PredictErrors.
Context `{Lowercase} {num : Type} `{Numeric num} `{Exponential num}.

Lemma getitem_out_of_range {A} (l : list A) (i : nat) :
  length l <= i -> getitem l i = Raise IndexError.
Proof.
  intros Hi. unfold getitem. rewrite (lookup_ge_None_2 l i Hi). reflexivity.
Qed.

(** The score loop stops with [IndexError] at the first key beyond the
    weight list. *)
Lemma score_loop_out_of_range (features : Counter) (keys : list nat) (acc : num)
    (c : classifier num) :
  (exists k, In k keys /\ length (weight_vector c) <= k) ->
  score_loop features keys acc c = Raise IndexError.
Proof.
  revert acc. induction keys as [ | f keys IH]; intros acc (k & Hk & Hlen).
  - destruct Hk.
  - cbn [score_loop]. unfold weight_at. unfold_monad.
    destruct (Nat.lt_ge_cases f (length (weight_vector c))) as [Hf | Hf].
    + rewrite (getitem_nth _ _ (of_Z 0) Hf). apply IH. exists k.
      destruct Hk as [<- | Hk]; [lia | auto].
    + rewrite (getitem_out_of_range _ _ Hf). reflexivity.
Qed.

Lemma score_out_of_range (sentence : list string) (c : classifier num)
    (features : Counter) :
  extract_features (featurizer c) sentence false (indexer c)
    = Ok (features, indexer c) ->
  ((forall k, In k (counter_keys features) -> k < length (weight_vector c)) ->
   exists s, score sentence c = Ok (s, c))
  /\ ((exists k, In k (counter_keys features) /\ length (weight_vector c) <= k) ->
      score sentence c = Raise IndexError).
Proof.
  intros Hex.
  assert (Hf : featurize sentence false c = Ok (features, c)).
  { unfold featurize. unfold_monad. rewrite Hex, set_indexer_same. reflexivity. }
  unfold score. unfold bind. rewrite Hf. split.
  - intros Hlt. rewrite (score_loop_eq _ _ _ _ Hlt). eauto.
  - apply score_loop_out_of_range.
Qed.

End PredictErrors.

(** Inference-mode extraction returns and gives the indexer back. *)
Lemma inference_extraction `{Lowercase} (fe : FeatureExtractor) (sentence : list string)
    (ix : Indexer.t) :
  exists features, extract_features fe sentence false ix = Ok (features, ix).
Proof.
  pose proof (extract_features_post fe sentence false ix) as Hpost.
  apply post_eq in Hpost. destruct Hpost as (features & ix' & Hrun & _ & _ & _ & Hsame).
  rewrite (Hsame eq_refl) in Hrun. eauto.
Qed.

(** X7.  Both [predict] methods extract in inference mode.  When every
    feature index of the sentence is inside the weight list, the
    perceptron [predict] returns 0 or 1 and the logistic regression
    [predict] returns 0 or 1 or raises the [OverflowError] of
    [math.exp], the classifier being left as it was; when one index is
    not, both raise [IndexError].  No lookup error can come out of
    them. *)
Theorem predict_raises_only_out_of_range `{Lowercase} {num : Type} `{Numeric num}
    `{Exponential num} (c : classifier num) (sentence : list string) :
  exists features,
    extract_features (featurizer c) sentence false (indexer c)
      = Ok (features, indexer c)
    /\ ((forall k, In k (counter_keys features) -> k < length (weight_vector c)) ->
        (exists p, PerceptronClassifier_predict sentence c = Ok (p, c)
                   /\ (p = 0 \/ p = 1)%Z)
        /\ post_or_overflow (LogisticRegressionClassifier_predict sentence) c
             (fun p c' => c' = c /\ (p = 0 \/ p = 1)%Z))
    /\ ((exists k, In k (counter_keys features) /\ length (weight_vector c) <= k) ->
        PerceptronClassifier_predict sentence c = Raise IndexError
        /\ LogisticRegressionClassifier_predict sentence c = Raise IndexError).
Proof.
  destruct (inference_extraction (featurizer c) sentence (indexer c))
    as [features Hex].
  exists features. split; [exact Hex | ].
  destruct (score_out_of_range sentence c features Hex) as [Hok Hraise].
  split.
  - intros Hlt. destruct (Hok Hlt) as [s Hs]. split.
    + unfold PerceptronClassifier_predict. unfold bind. rewrite Hs. unfold ret.
      destruct (ngtb s (of_Z 0)); eauto.
    + unfold post_or_overflow, LogisticRegressionClassifier_predict. unfold bind.
      rewrite (p_1_x_eq _ _ _ _ Hs).
      destruct (nexp s) as [e | err] eqn:He; [ | eapply nexp_raises, He].
      unfold ret. destruct (ngtb _ one_half); auto.
  - intros Hout.
    unfold PerceptronClassifier_predict, LogisticRegressionClassifier_predict, p_1_x.
    unfold bind. rewrite (Hraise Hout). split; reflexivity.
Qed.

Lemma predict_raises_only_out_of_range_witness :
  PerceptronClassifier_predict ["good"; "bad"]
    {| featurizer := UnigramFeatureExtractor;
       indexer := Indexer.Make ["good"; "bad"];
       weight_vector := [1%R] |}
  = Raise IndexError.
Proof.
  destruct (predict_raises_only_out_of_range
              {| featurizer := UnigramFeatureExtractor;
                 indexer := Indexer.Make ["good"; "bad"];
                 weight_vector := [1%R] |} ["good"; "bad"])
    as (features & Hex & _ & Hraise).
  apply Hraise. cbn in Hex. injection Hex as <-.
  exists 1. split; [right; left; reflexivity | simpl; lia].
Defined.

(** * More on the trainers *)

Section UpdateDetails.
Context `{Lowercase} {num : Type} `{Numeric num}.

Lemma featurize_eq (sentence : list string) (add_to_indexer : bool)
    (c : classifier num) (features : Counter) (ix' : Indexer.t) :
  extract_features (featurizer c) sentence add_to_indexer (indexer c)
    = Ok (features, ix') ->
  featurize sentence add_to_indexer c = Ok (features, set_indexer ix' c).
Proof. intros Hex. unfold featurize. unfold_monad. rewrite Hex. reflexivity. Qed.

(** Extraction in growth mode, the growth loop and the append, with the
    classifier they leave. *)
Lemma extract_and_grow_eq (sentence : list string)
    (k : Counter -> M (classifier num) unit) (c : classifier num)
    (features : Counter) (ix' : Indexer.t) :
  extract_features (featurizer c) sentence true (indexer c) = Ok (features, ix') ->
  (let* features := featurize sentence true in
   grow_weights ;; append_zero ;; k features) c
  = k features (extended (set_indexer ix' c)).
Proof.
  intros Hex. unfold bind at 1. rewrite (featurize_eq _ _ _ _ _ Hex).
  pose proof (grow_then_append (set_indexer ix' c)) as Hgrow.
  unfold bind in *.
  destruct (grow_weights (set_indexer ix' c)) as [[[] c2] | e]; [ | discriminate].
  rewrite Hgrow. reflexivity.
Qed.

(** Reading the extended weight list with default 0 is reading the old
    one: the new positions hold 0. *)
Lemma nth_extended (c : classifier num) (ix' : Indexer.t) (k : nat) :
  nth k (weight_vector (extended (set_indexer ix' c))) (of_Z 0)
  = nth k (weight_vector c) (of_Z 0).
Proof.
  unfold extended. cbn [weight_vector set_weight_vector set_indexer indexer].
  destruct (Nat.lt_ge_cases k (length (weight_vector c))) as [Hk | Hk].
  - rewrite app_nth1 by exact Hk. reflexivity.
  - rewrite app_nth2 by exact Hk. rewrite (nth_overflow (weight_vector c)) by exact Hk.
    set (n := Indexer.size ix' - length (weight_vector c)).
    set (j := k - length (weight_vector c)).
    destruct (Nat.lt_ge_cases j (length (replicate n (of_Z 0) ++ [of_Z 0])))
      as [Hj | Hj]; [ | apply nth_overflow; exact Hj].
    assert (Hin : In (nth j (replicate n (of_Z 0) ++ [of_Z 0]) (of_Z 0))
                     (replicate n (of_Z 0) ++ [of_Z 0])) by (apply nth_In, Hj).
    apply in_app_or in Hin. destruct Hin as [Hin | [Hin | []]].
    + apply list_elem_of_In, elem_of_replicate in Hin. apply Hin.
    + symmetry. exact Hin.
Qed.

Lemma for_each_ext {S A} (f g : A -> M S unit) (xs : list A) (s : S) :
  (forall x s0, In x xs -> f x s0 = g x s0) ->
  for_each xs f s = for_each xs g s.
Proof.
  revert s. induction xs as [ | x xs IH]; intros s Hext; [reflexivity | ].
  cbn [for_each]. unfold bind. rewrite (Hext x s (or_introl eq_refl)).
  destruct (g x s) as [[[] s1] | e]; [ | reflexivity].
  apply IH. intros y s0 Hy. apply Hext. right. exact Hy.
Qed.

(** What a loop of steps does to every weight, when each step rewrites
    the weight of its own feature. *)
Lemma loop_weights (step : nat -> M (classifier num) unit)
    (delta : classifier num -> num -> num) (keys : list nat) (c : classifier num) :
  stepwise step delta -> covers c -> List.NoDup keys ->
  (forall k, In k keys -> k < length (weight_vector c)) ->
  exists c', for_each keys step c = Ok (tt, c') /\ same_shape c c'
    /\ (forall k, ~ In k keys ->
          nth k (weight_vector c') (of_Z 0) = nth k (weight_vector c) (of_Z 0))
    /\ (forall k, In k keys ->
          exists c1, covers c1 /\ same_shape c c1
            /\ nth k (weight_vector c') (of_Z 0)
               = delta c1 (nth k (weight_vector c) (of_Z 0))).
Proof.
  intros Hstep Hcov Hnd Hlt.
  destruct (loop_keeps_other step delta keys (length (weight_vector c)) c Hstep Hcov Hlt)
    as (c' & Hrun & Hshape & _).
  { intros Hin. apply Hlt in Hin. lia. }
  exists c'. split; [exact Hrun | split; [exact Hshape | split]].
  - intros k Hk.
    destruct (loop_keeps_other step delta keys k c Hstep Hcov Hlt Hk)
      as (c2 & Hrun2 & _ & Hnth). congruence.
  - intros k Hk. apply in_split in Hk. destruct Hk as (earlier & later & ->).
    destruct (loop_weight_of_feature step delta earlier later k c Hstep Hcov Hnd Hlt)
      as (c1 & c2 & Hrun1 & Hcov1 & Hrun2 & Hnth).
    destruct (loop_keeps_other step delta earlier k c Hstep Hcov) as (c1' & Hrun1' & Hshape1 & _).
    { intros j Hj. apply Hlt, in_or_app. left. exact Hj. }
    { apply List.NoDup_remove_2 in Hnd. intros Hin. apply Hnd, in_or_app. left. exact Hin. }
    exists c1. split; [exact Hcov1 | split; [congruence | congruence]].
Qed.

End UpdateDetails.

Section PerceptronUpdate.
Context `{Lowercase} {num : Type} `{Numeric num}.

(** [weight_vector[f] += d] and [weight_vector[f] -= d] with a fixed [d]. *)
Definition bump (op : num -> num -> num) (d : num) (f : nat)
  : M (classifier num) unit :=
  let* w := weight_at f in set_weight_at f (op w d).

Lemma bump_stepwise (op : num -> num -> num) (d : num) :
  stepwise (bump op d) (fun _ w => op w d).
Proof. intros f c _ Hf. apply bump_weight_eq, Hf. Qed.

(** The two update loops of the perceptron, on a vector of ones. *)
Lemma perceptron_loop_bump (op : num -> num -> num) (features : Counter)
    (c : classifier num) :
  List.NoDup (counter_keys features) -> all_ones features ->
  for_each (counter_keys features) (fun word_idx =>
    let* w := weight_at word_idx in
    set_weight_at word_idx
      (op w (nmul alpha_perceptron (of_Z (counter_get features word_idx))))) c
  = for_each (counter_keys features)
      (bump op (nmul alpha_perceptron (of_Z 1))) c.
Proof.
  intros Hnd Hones. apply for_each_ext. intros k s0 Hk. unfold bump.
  replace (counter_get features k) with 1%Z; [reflexivity | ].
  unfold counter_keys in Hk. apply in_map_iff in Hk.
  destruct Hk as ([k' v] & <- & Hin). rewrite (Hones _ _ Hin).
  symmetry. apply counter_get_in; [exact Hnd | ].
  rewrite <- (Hones _ _ Hin). exact Hin.
Qed.

End PerceptronUpdate.

(** X9.  When the perceptron mispredicts an example with label 1, the
    update extracts in growth mode and adds [alpha * 1] to the weight of
    every active feature, a feature new to the indexer starting from 0;
    with label 0 it subtracts it; every other weight reads as before.
    The indexer after the update is the one the extraction left. *)
Theorem perceptron_update_moves_active_weights `{Lowercase} {num : Type} `{Numeric num}
    (train_ex : SentimentExample) (c : classifier num) (p : Z) :
  covers c ->
  PerceptronClassifier_predict (words train_ex) c = Ok (p, c) ->
  p <> label train_ex ->
  (label train_ex = 0 \/ label train_ex = 1)%Z ->
  exists features ix' c',
    extract_features (featurizer c) (words train_ex) true (indexer c)
      = Ok (features, ix')
    /\ perceptron_example train_ex c = Ok (tt, c')
    /\ featurizer c' = featurizer c /\ indexer c' = ix'
    /\ (forall k, ~ In k (counter_keys features) ->
          nth k (weight_vector c') (of_Z 0) = nth k (weight_vector c) (of_Z 0))
    /\ (forall k, In k (counter_keys features) ->
          nth k (weight_vector c') (of_Z 0)
          = (if Z.eqb (label train_ex) 1 then nadd else nsub)
              (nth k (weight_vector c) (of_Z 0))
              (nmul alpha_perceptron (of_Z 1))).
Proof.
  intros Hcov Hpredict Hwrong Hlabel.
  pose proof (extract_features_post (featurizer c) (words train_ex) true (indexer c))
    as Hpost.
  pose proof (extract_features_grams_post (featurizer c) (words train_ex) true
                (indexer c)) as Hgrams.
  pose proof (post_and _ _ _ _ Hpost Hgrams) as Hboth. apply post_eq in Hboth.
  destruct Hboth as (features & ix' & Hex & (Hix & Hnd & Hext & _)
                     & (_ & _ & _ & _ & _ & Hones)).
  specialize (Hones ltac:(intros ? ? [])).
  set (c1 := extended (set_indexer ix' c)).
  assert (Hcov1 : covers c1).
  { unfold covers, c1. rewrite extended_length. simpl. lia. }
  assert (Hlt : forall k, In k (counter_keys features) ->
                  k < length (weight_vector c1)).
  { intros k Hk. pose proof (indexed_lt _ _ _ Hix Hk). unfold c1.
    rewrite extended_length. simpl. lia. }
  set (op := if Z.eqb (label train_ex) 1 then nadd else nsub).
  assert (Hrun : perceptron_example train_ex c
                 = for_each (counter_keys features)
                     (bump op (nmul alpha_perceptron (of_Z 1))) c1).
  { unfold perceptron_example. unfold bind at 1. rewrite Hpredict.
    destruct (Z.eqb_spec (label train_ex) p) as [Heq | _]; [congruence | ].
    rewrite (extract_and_grow_eq _ _ _ _ _ Hex). fold c1. unfold op.
    destruct Hlabel as [Hl | Hl]; rewrite Hl; cbn [Z.eqb Pos.eqb];
      apply perceptron_loop_bump; assumption. }
  destruct (loop_weights _ _ (counter_keys features) c1
              (bump_stepwise op (nmul alpha_perceptron (of_Z 1))) Hcov1 Hnd Hlt)
    as (c' & Hloop & (Hfe & Hixc & _) & Hother & Hactive).
  exists features, ix', c'.
  split; [exact Hex | ]. split; [rewrite Hrun; exact Hloop | ].
  split; [rewrite Hfe; reflexivity | ]. split; [rewrite Hixc; reflexivity | ].
  split.
  - intros k Hk. rewrite (Hother k Hk). apply nth_extended.
  - intros k Hk. destruct (Hactive k Hk) as (c2 & _ & _ & Hnth).
    rewrite Hnth. unfold c1. rewrite nth_extended. reflexivity.
Qed.

Lemma perceptron_update_moves_active_weights_witness :
  exists c',
    perceptron_example good_example (@fresh_unigram float) = Ok (tt, c')
    /\ indexer c' = Indexer.Make ["good"]
    /\ nth 0 (weight_vector c') 0%float = (0 + 5 / 100 * 1)%float.
Proof.
  assert (Hcov : covers (@fresh_unigram float))
    by (unfold covers, Indexer.size; simpl; lia).
  assert (Hpredict : PerceptronClassifier_predict (words good_example)
                       (@fresh_unigram float) = Ok (0%Z, fresh_unigram))
    by (vm_compute; reflexivity).
  destruct (perceptron_update_moves_active_weights good_example
              (@fresh_unigram float) 0%Z Hcov Hpredict ltac:(discriminate)
              ltac:(right; reflexivity))
    as (features & ix' & c' & Hex & Hrun & _ & Hix & _ & Hactive).
  vm_compute in Hex. injection Hex as <- <-.
  exists c'. split; [exact Hrun | ]. split; [exact Hix | ].
  apply (Hactive 0). left. reflexivity.
Defined.

Section PerceptronFixedPoint.
Context `{Lowercase} {num : Type} `{Numeric num} `{RandomGen}.

Lemma perceptron_example_skip (train_ex : SentimentExample) (c : classifier num) :
  PerceptronClassifier_predict (words train_ex) c = Ok (label train_ex, c) ->
  perceptron_example train_ex c = Ok (tt, c).
Proof.
  intros Hpredict. unfold perceptron_example. unfold bind at 1.
  rewrite Hpredict, Z.eqb_refl. reflexivity.
Qed.

Lemma perceptron_examples_skip (exs : list SentimentExample) (s : store num) :
  (forall ex, In ex exs ->
     PerceptronClassifier_predict (words ex) (clf s) = Ok (label ex, clf s)) ->
  for_each exs (fun train_ex => zoom clf set_clf (perceptron_example train_ex)) s
  = Ok (tt, s).
Proof.
  induction exs as [ | ex exs IH]; intros Hall; [reflexivity | ].
  cbn [for_each]. unfold bind, zoom.
  rewrite (perceptron_example_skip ex (clf s)) by (apply Hall; left; reflexivity).
  replace (set_clf (clf s) s) with s by (destruct s; reflexivity).
  apply IH. intros ex' Hin. apply Hall. right. exact Hin.
Qed.

End PerceptronFixedPoint.

(** X8.  Once the classifier predicts the label of every training
    example, an epoch of the perceptron changes nothing in it: neither
    weights nor indexer, even for words the indexer has never seen.  The
    epoch still shuffles the caller's list. *)
Theorem perceptron_epoch_is_stable `{Lowercase} {num : Type} `{Numeric num} `{RandomGen}
    (s : store num) :
  (forall ex, In ex (train_exs s) ->
     PerceptronClassifier_predict (words ex) (clf s) = Ok (label ex, clf s)) ->
  post (epoch perceptron_example) s (fun _ s' =>
    clf s' = clf s /\ train_exs s ≡ₚ train_exs s').
Proof.
  intros Hall. unfold epoch.
  pose proof (shuffle_post (train_exs s) (global_rng s)) as Hsh.
  apply post_eq in Hsh. destruct Hsh as ([] & [l g] & Hsh & Hperm).
  simpl in Hperm.
  apply post_bind, post_zoom. unfold post at 1. rewrite Hsh.
  apply post_bind, post_gets. unfold post.
  rewrite perceptron_examples_skip.
  - split; [reflexivity | exact Hperm].
  - simpl. intros ex Hin. apply Hall.
    apply list_elem_of_In. rewrite Hperm. apply list_elem_of_In. exact Hin.
Qed.

(** A store whose classifier already separates its two examples. *)
Definition separated_store : store float :=
  {| train_exs := [word_example "good" 1; word_example "bad" 0];
     global_rng := MT19937.seed 10;
     clf := good_bad_classifier |}.

Lemma perceptron_epoch_is_stable_witness :
  post (epoch perceptron_example) separated_store (fun _ s' =>
    clf s' = clf separated_store
    /\ train_exs separated_store ≡ₚ train_exs s').
Proof.
  apply (perceptron_epoch_is_stable separated_store).
  intros ex [<- | [<- | []]]; vm_compute; reflexivity.
Defined.

(** Growth-mode extraction keeps the known indices and knows every
    n-gram of the sentence afterwards. *)
Lemma growth_keeps_and_covers `{Lowercase} (fe : FeatureExtractor) (sentence : list string)
    (ix : Indexer.t) :
  post (extract_features fe sentence true) ix (fun _ ix' =>
    (forall gram k, Indexer.index_of gram ix = Ok (k, ix) ->
                    Indexer.index_of gram ix' = Ok (k, ix'))
    /\ (forall gram, In gram (ngrams fe sentence) ->
                     Indexer.contains ix' gram = true)).
Proof.
  pose proof (extract_features_grams_post fe sentence true ix) as Hgrams.
  eapply post_mono; [exact Hgrams | ].
  intros features ix' (Hext & _ & _ & _ & Hin & _). split.
  - intros g k Hidx. apply index_of_position. apply index_of_position in Hidx.
    destruct Hext as [more ->]. apply position_app_known, Hidx.
  - intros g Hg. apply contains_In, Hin; [reflexivity | exact Hg].
Qed.

(** X10.  A visit of the logistic regression trainer to an example
    returns or ends in the [OverflowError] of [math.exp].  When it
    returns, every n-gram of the example is in the indexer, whether or
    not the weights were updated for that example, every string the
    indexer knew keeps its index, and the extractor is the same. *)
Theorem lr_example_indexes_every_ngram `{Lowercase} {num : Type} `{Numeric num}
    `{Exponential num} (train_ex : SentimentExample) (c : classifier num) :
  post_or_overflow (lr_example train_ex) c (fun _ c' =>
    featurizer c' = featurizer c
    /\ (forall gram, In gram (ngrams (featurizer c) (words train_ex)) ->
          Indexer.contains (indexer c') gram = true)
    /\ (forall gram k, Indexer.index_of gram (indexer c) = Ok (k, indexer c) ->
          Indexer.index_of gram (indexer c') = Ok (k, indexer c'))).
Proof.
  pose proof (extract_features_post (featurizer c) (words train_ex) true (indexer c))
    as Hpost.
  pose proof (growth_keeps_and_covers (featurizer c) (words train_ex)
                (indexer c)) as Hgrams.
  pose proof (post_and _ _ _ _ Hpost Hgrams) as Hboth. apply post_eq in Hboth.
  destruct Hboth as (features & ix' & Hex & (Hix & Hnd & _) & (Hkeep & Hall)).
  unfold post_or_overflow, lr_example. rewrite (extract_and_grow_eq _ _ _ _ _ Hex).
  set (c1 := extended (set_indexer ix' c)).
  assert (Hcov1 : covers c1).
  { unfold covers, c1. rewrite extended_length. simpl. lia. }
  assert (Hlt : forall k, In k (counter_keys features) ->
                  k < length (weight_vector c1)).
  { intros k Hk. pose proof (indexed_lt _ _ _ Hix Hk). unfold c1.
    rewrite extended_length. simpl. lia. }
  pose proof (lr_update_post train_ex features c1 Hcov1 Hlt) as Hupd.
  unfold post_or_overflow in Hupd.
  destruct (lr_update train_ex features c1) as [[[] c2] | e]; [ | exact Hupd].
  destruct Hupd as (Hfe & Hixc & _). rewrite Hfe, Hixc.
  split; [reflexivity | split; [exact Hall | exact Hkeep]].
Qed.

(** X11.  The classifier [train_perceptron] returns, from any store,
    classifies every sentence: its weight list covers its indexer and
    its [predict] returns 0 or 1.  [train_logistic_regression] returns
    or ends in the [OverflowError] of [math.exp]; the classifier it
    returns has a weight list that covers its indexer, and its
    [predict] returns 0 or 1 or raises that same error, nothing else. *)
Theorem trained_classifier_predicts `{Lowercase} {num : Type} `{Numeric num}
    `{Exponential num} `{RandomGen} (s : store num) (sentence : list string) :
  post train_perceptron s (fun c _ =>
    Indexer.size (indexer c) <= length (weight_vector c)
    /\ exists p, PerceptronClassifier_predict sentence c = Ok (p, c)
                 /\ (p = 0 \/ p = 1)%Z)
  /\ post_or_overflow train_logistic_regression s (fun c _ =>
    Indexer.size (indexer c) <= length (weight_vector c)
    /\ post_or_overflow (LogisticRegressionClassifier_predict sentence) c
         (fun p c' => c' = c /\ (p = 0 \/ p = 1)%Z)).
Proof.
  split.
  - eapply post_mono; [apply train_perceptron_post | ].
    intros c s' (_ & Hcov & _). split; [exact Hcov | ].
    destruct (score_post sentence c Hcov) as [sc Hsc].
    unfold PerceptronClassifier_predict. unfold bind. rewrite Hsc.
    destruct (ngtb sc (of_Z 0)); unfold ret; eauto.
  - eapply partial_mono; [apply train_logistic_regression_post | ].
    intros c s' (_ & Hcov & _). split; [exact Hcov | ].
    apply predict_lr_post, Hcov.
Qed.

(** ** Training on no examples *)

Section NoExamples.
Context `{Lowercase} {num : Type} `{Numeric num} `{RandomGen}.

Lemma epochs_on_no_examples (body : SentimentExample -> M (classifier num) unit)
    (es : list nat) (s : store num) :
  train_exs s = [] ->
  for_each es (fun _ => epoch body) s = Ok (tt, s).
Proof.
  intros Hnil. induction es as [ | e es IH]; [reflexivity | ].
  cbn [for_each]. unfold bind at 1.
  assert (Hepoch : epoch body s = Ok (tt, s)).
  { destruct s as [exs g c]. simpl in Hnil. subst exs. reflexivity. }
  rewrite Hepoch. exact IH.
Qed.

Lemma init_weights_replicate (c : classifier num) :
  init_weights c
  = Ok (tt, set_weight_vector (replicate (Indexer.size (indexer c)) (of_Z 0)) c).
Proof.
  unfold init_weights, modify, range. rewrite Nat2Z.id.
  do 3 f_equal. generalize 0 at 1.
  induction (Indexer.size (indexer c)) as [ | n IH]; intros a; [reflexivity | ].
  simpl. rewrite IH. reflexivity.
Qed.

End NoExamples.

(** X14.  Trained on an empty list, either trainer returns a classifier
    with the extractor and indexer it was given and one zero weight per
    indexed string; the list stays empty and the generator is left as
    seeded, no number being drawn. *)
Theorem training_on_no_examples `{Lowercase} {num : Type} `{Numeric num} `{Exponential num}
    `{RandomGen} (s : store num) :
  train_exs s = [] ->
  let c0 := set_weight_vector
              (replicate (Indexer.size (indexer (clf s))) (of_Z 0)) (clf s) in
  train_perceptron s
    = Ok (c0, {| train_exs := []; global_rng := seed 10; clf := c0 |})
  /\ train_logistic_regression s
     = Ok (c0, {| train_exs := []; global_rng := seed 2324; clf := c0 |}).
Proof.
  intros Hnil c0.
  assert (Hrun : forall (a epochs : Z)
                   (body : SentimentExample -> M (classifier num) unit),
            trainer a epochs body s
            = Ok (c0, {| train_exs := []; global_rng := seed a; clf := c0 |})).
  { intros a epochs body. unfold trainer. unfold bind at 1. unfold modify.
    unfold bind at 1. unfold zoom. rewrite init_weights_replicate.
    unfold bind at 1.
    rewrite epochs_on_no_examples by (simpl; exact Hnil).
    unfold gets. subst c0. destruct s as [exs g c]. simpl in Hnil. subst exs.
    reflexivity. }
  split.
  - change train_perceptron with (trainer 10 50 perceptron_example). apply Hrun.
  - change train_logistic_regression with (trainer 2324 15 lr_example). apply Hrun.
Qed.

(** A store with no examples and a classifier that knows two words. *)
Definition store_without_examples : store R :=
  {| train_exs := []; global_rng := MT19937.seed 0;
     clf := ab_classifier [1%R] |}.

Lemma training_on_no_examples_witness :
  let c0 := set_weight_vector
              (replicate (Indexer.size (indexer (clf store_without_examples)))
                 (of_Z 0)) (clf store_without_examples) in
  train_perceptron store_without_examples
    = Ok (c0, {| train_exs := []; global_rng := seed 10; clf := c0 |})
  /\ train_logistic_regression store_without_examples
     = Ok (c0, {| train_exs := []; global_rng := seed 2324; clf := c0 |}).
Proof.
  exact (training_on_no_examples store_without_examples eq_refl).
Defined.
